(** * go-livepeer: trickle subscriber and switchable segment reader

  A shallow embedding of [trickle/trickle_subscriber.go] and
  [media/segment_reader.go], and the properties of the fetch-ahead
  state machine and of the handler dispatcher proved over it. *)

From Stdlib Require Import ZArith Ascii String.
From stdpp Require Import base decidable option list gmap strings.

Local Open Scope string_scope.
Local Open Scope list_scope.
Local Open Scope Z_scope.

(** ** Go's [int] on a 64-bit platform *)

Module GoInt.

Definition min_int : Z := - 2 ^ 63.
Definition max_int : Z := 2 ^ 63 - 1.

Definition in_range (z : Z) : bool := (min_int <=? z) && (z <=? max_int).

(** Two's complement wrap-around of a mathematical integer. *)
Definition wrap (z : Z) : Z := (z + 2 ^ 63) mod 2 ^ 64 - 2 ^ 63.

(** [a + b] on [int]. *)
Definition add (a b : Z) : Z := wrap (a + b).

End GoInt.

(** ** The parts of the Go standard library the subscriber calls *)

Module GoLib.

(** The value of a decimal digit byte, as [ch -= '0'; ch > 9] tests it. *)
Definition digit_of (a : ascii) : option Z :=
  let n := Z.of_N (N_of_ascii a) in
  if (48 <=? n) && (n <=? 57) then Some (n - 48) else None.

Fixpoint parse_digits (acc : Z) (s : string) : option Z :=
  match s with
  | EmptyString => Some acc
  | String ch rest =>
      match digit_of ch with
      | Some d => parse_digits (acc * 10 + d) rest
      | None => None
      end
  end.

(** [strconv.Atoi]: an optional sign, then one or more decimal digits;
    [None] stands for a non-nil error (syntax, or a value out of the
    range of [int]). *)
Definition Atoi (s : string) : option Z :=
  match s with
  | EmptyString => None
  | String ch rest =>
      let neg := Ascii.eqb ch "-" in
      let body := if neg || Ascii.eqb ch "+" then rest else s in
      match body with
      | EmptyString => None
      | _ =>
          match parse_digits 0 body with
          | None => None
          | Some n =>
              let v := if neg then - n else n in
              if GoInt.in_range v then Some v else None
          end
      end
  end.

(** [http.Header] is [map[string][]string]. *)
Abbreviation http_Header := (gmap string (list string)).

(** [Header.Get]: the first value stored under the key, or the empty
    string.  Both keys used here are already in canonical form. *)
Definition Header_Get (h : http_Header) (key : string) : string :=
  match h !! key with
  | Some (v :: _) => v
  | _ => EmptyString
  end.

Definition StatusOK : Z := 200.

End GoLib.

Import GoLib.


(** ** trickle/trickle_subscriber.go *)

Module Trickle.

(** Go [error] values, one constructor per place where the subscriber
    makes or receives one. *)
Inductive error : Type :=
| EOS                                   (* var EOS = errors.New("End of stream") *)
| HitMaxPreconnects                     (* fmt.Errorf("Hit max preconnects") *)
| RequestError (cause : string)         (* from http.NewRequestWithContext *)
| GetError (cause : string)             (* "failed to complete GET for next segment: %w" *)
| StatusError (code : Z) (msg : string). (* "failed GET segment, status code: %d, msg: %s" *)

(** [*http.Response]: [addr] is the identity of the pointed-to object,
    fresh for every response the HTTP client hands out. *)
Record Response : Type := mkResponse {
  addr : nat;
  StatusCode : Z;
  Header : http_Header;
  Body : string
}.

(** [TrickleSubscriber] without its mutex: [Read] and the goroutine it
    starts hold [mu] from their first to their last statement, so each of
    them is one atomic transition of the state below. *)
Record TrickleSubscriber : Type := mkSubscriber {
  url : string;
  pendingGet : option Response;
  idx : Z;
  preconnectErrorCount : Z
}.

Definition NewTrickleSubscriber (url : string) : TrickleSubscriber :=
  {| url := url;
     pendingGet := None;
     idx := -1;
     preconnectErrorCount := 0 |}.

Definition GetSeq (resp : option Response) : Z :=
  match resp with
  | None => -99
  | Some resp =>
      let v := Header_Get (Header resp) "Lp-Trickle-Seq" in
      match Atoi v with
      | None => -98
      | Some i => i
      end
  end.

Definition IsEOS (resp : Response) : bool :=
  negb (String.eqb (Header_Get (Header resp) "Lp-Trickle-Closed") EmptyString).

(** *** The network *)

(** What the server side sends back for one GET. *)
Record Reply : Type := mkReply {
  reply_status : Z;
  reply_header : http_Header;
  reply_body : string
}.

(** The fate of one [connect] call. *)
Inductive attempt : Type :=
| NoAnswer                    (* nothing within preconnectRefreshTimeout: cancelled *)
| BadRequest (cause : string) (* http.NewRequestWithContext fails *)
| DoFails (cause : string)    (* Client.Do fails *)
| Answer (r : Reply).         (* Client.Do returns a response *)

(** A GET to [fmt.Sprintf("%s/%d", c.url, c.idx)], kept as the two values
    the URL is printed from. *)
Record Request : Type := mkRequest {
  req_base : string;
  req_idx : Z
}.

(** [script] lists the fates of the connect calls still to come, [sent]
    the requests handed to the HTTP client so far (oldest first) and
    [next_addr] the next free response identity. *)
Record World : Type := mkWorld {
  script : list attempt;
  sent : list Request;
  next_addr : nat
}.

Definition with_script (s : list attempt) (w : World) : World :=
  {| script := s; sent := sent w; next_addr := next_addr w |}.

Definition send (rq : Request) (w : World) : World :=
  {| script := script w; sent := sent w ++ [rq]; next_addr := next_addr w |}.

Definition alloc (w : World) : World :=
  {| script := script w; sent := sent w; next_addr := S (next_addr w) |}.

(** The request [connect] makes for the subscriber as it stands. *)
Definition request_of (c : TrickleSubscriber) : Request :=
  {| req_base := url c; req_idx := idx c |}.

Inductive connect_result : Type :=
| Cancelled                  (* the error is context.Canceled *)
| Failed (err : error)
| Connected (resp : Response).

Definition connect (c : TrickleSubscriber) (a : attempt) (w : World)
  : connect_result * World :=
  let rq := request_of c in
  match a with
  | BadRequest cause => (Failed (RequestError cause), w)
  | NoAnswer => (Cancelled, send rq w)
  | DoFails cause => (Failed (GetError cause), send rq w)
  | Answer r =>
      let w1 := send rq w in
      if negb (reply_status r =? StatusOK) then
        (Failed (StatusError (reply_status r) (reply_body r)), w1)
      else
        (Connected {| addr := next_addr w1;
                      StatusCode := reply_status r;
                      Header := reply_header r;
                      Body := reply_body r |},
         alloc w1)
  end.

(** The refresh loop of [preconnect], by recursion on the script: a
    cancelled attempt is replaced by the next one; with no attempt left
    nothing ever arrives on either channel and the call blocks for ever
    ([None]). *)
Fixpoint preconnect_loop (c : TrickleSubscriber) (s : list attempt) (w : World)
  : option ((Response + error) * World) :=
  match s with
  | [] => None
  | a :: s' =>
      match connect c a (with_script s' w) with
      | (Cancelled, w1) => preconnect_loop c s' w1
      | (Failed err, w1) => Some (inr err, w1)
      | (Connected resp, w1) => Some (inl resp, w1)
      end
  end.

Definition preconnect (c : TrickleSubscriber) (w : World)
  : option ((Response + error) * World) :=
  preconnect_loop c (script w) w.

(** *** Read *)

(** What one call of [Read] leaves behind: the pair it returns, the
    subscriber and the world after it, and whether it started the
    look-ahead goroutine. *)
Record ReadOut : Type := mkReadOut {
  ret_conn : option Response;
  ret_err : option error;
  sub_after : TrickleSubscriber;
  world_after : World;
  started : bool
}.

(** "Get the reader to use for the current segment": the pending GET, or
    else a synchronous preconnect.  Left: the connection, with the
    subscriber and world at that point; right: the preconnect error. *)
Definition current_segment (c : TrickleSubscriber) (w : World)
  : option (Response * TrickleSubscriber * World + error * TrickleSubscriber * World) :=
  match pendingGet c with
  | Some conn => Some (inl (conn, c, w))
  | None =>
      match preconnect c w with
      | None => None
      | Some (inr err, w1) =>
          Some (inr (err,
                     {| url := url c; pendingGet := pendingGet c; idx := idx c;
                        preconnectErrorCount :=
                          GoInt.add (preconnectErrorCount c) 1 |},
                     w1))
      | Some (inl p, w1) =>
          Some (inl (p,
                     {| url := url c; pendingGet := pendingGet c; idx := idx c;
                        preconnectErrorCount := 0 |},
                     w1))
      end
  end.

Definition Read (c : TrickleSubscriber) (w : World) : option ReadOut :=
  let hitMaxPreconnects := 5 <? preconnectErrorCount c in
  if hitMaxPreconnects then
    Some (mkReadOut None (Some HitMaxPreconnects) c w false)
  else
    match current_segment c w with
    | None => None
    | Some (inr (err, c1, w1)) => Some (mkReadOut None (Some err) c1 w1 false)
    | Some (inl (conn, c1, w1)) =>
        if IsEOS conn then
          Some (mkReadOut None (Some EOS) c1 w1 false)
        else
          let idx0 := GetSeq (Some conn) in
          let c2 :=
            if negb (idx0 =? -1) then
              {| url := url c1; pendingGet := pendingGet c1;
                 idx := GoInt.add idx0 1;
                 preconnectErrorCount := preconnectErrorCount c1 |}
            else c1 in
          Some (mkReadOut (Some conn) None c2 w1 true)
    end.

(** The body of the goroutine started by [Read], run as one critical
    section once it has the mutex. *)
Definition background (c : TrickleSubscriber) (w : World)
  : option (TrickleSubscriber * World) :=
  match preconnect c w with
  | None => None
  | Some (inr err, w1) =>
      Some ({| url := url c; pendingGet := pendingGet c; idx := idx c;
               preconnectErrorCount := GoInt.add (preconnectErrorCount c) 1 |},
            w1)
  | Some (inl nextConn, w1) =>
      let idx0 := GetSeq (Some nextConn) in
      Some ({| url := url c;
               pendingGet := Some nextConn;
               idx := if negb (idx0 =? -1) then GoInt.add idx0 1 else idx c;
               preconnectErrorCount := 0 |},
            w1)
  end.

(** *** A subscriber with its goroutines *)

(** [waiting] counts the look-ahead goroutines that were started and have
    not yet taken the mutex.  The mutex is not fair, so a waiting
    goroutine and a new [Read] call may enter in either order. *)
Record System : Type := mkSystem {
  sub : TrickleSubscriber;
  world : World;
  waiting : nat
}.

Inductive action : Type :=
| CallRead
| RunBackground.

Inductive observation : Type :=
| Returned (conn : option Response) (err : option error)
| Prefetched.

Definition step (a : action) (s : System) : option (observation * System) :=
  match a with
  | CallRead =>
      match Read (sub s) (world s) with
      | None => None
      | Some out =>
          Some (Returned (ret_conn out) (ret_err out),
                {| sub := sub_after out;
                   world := world_after out;
                   waiting := if started out then S (waiting s) else waiting s |})
      end
  | RunBackground =>
      match waiting s with
      | O => None
      | S n =>
          match background (sub s) (world s) with
          | None => None
          | Some (c', w') => Some (Prefetched, {| sub := c'; world := w'; waiting := n |})
          end
      end
  end.

Fixpoint run (acts : list action) (s : System)
  : option (list observation * System) :=
  match acts with
  | [] => Some ([], s)
  | a :: acts' =>
      match step a s with
      | None => None
      | Some (o, s1) =>
          match run acts' s1 with
          | None => None
          | Some (os, s2) => Some (o :: os, s2)
          end
      end
  end.

(** A fresh subscriber facing a given script. *)
Definition start (u : string) (s : list attempt) : System :=
  {| sub := NewTrickleSubscriber u;
     world := {| script := s; sent := []; next_addr := O |};
     waiting := O |}.

(** The connections handed to callers, in order. *)
Fixpoint handed_out (os : list observation) : list Response :=
  match os with
  | [] => []
  | Returned (Some conn) _ :: os' => conn :: handed_out os'
  | _ :: os' => handed_out os'
  end.

(** The subscriber with [n] more preconnect errors counted. *)
Definition bump (n : Z) (c : TrickleSubscriber) : TrickleSubscriber :=
  {| url := url c; pendingGet := pendingGet c; idx := idx c;
     preconnectErrorCount := preconnectErrorCount c + n |}.


(** *** Sample traffic *)

Definition segment (seq : string) : attempt :=
  Answer {| reply_status := 200;
            reply_header := {[ "Lp-Trickle-Seq" := [seq] ]};
            reply_body := "segment" |}.

Definition unnumbered : attempt :=
  Answer {| reply_status := 200; reply_header := ∅; reply_body := "segment" |}.

Definition closed (seq : string) : attempt :=
  Answer {| reply_status := 200;
            reply_header := <[ "Lp-Trickle-Closed" := ["1"] ]> {[ "Lp-Trickle-Seq" := [seq] ]};
            reply_body := EmptyString |}.

(** Where a subscriber stands after segment 1 was read and the
    look-ahead for index 2 was answered with a closed stream. *)
Definition closed_response : Response :=
  mkResponse 1 200
    (<[ "Lp-Trickle-Closed" := ["1"] ]> {[ "Lp-Trickle-Seq" := ["2"] ]}) EmptyString.

Definition at_end_of_stream : System :=
  {| sub := {| url := "u"; pendingGet := Some closed_response;
               idx := 3; preconnectErrorCount := 0 |};
     world := {| script := [];
                 sent := [mkRequest "u" (-1); mkRequest "u" 2];
                 next_addr := 2 |};
     waiting := O |}.

Definition six_failures : list attempt :=
  [DoFails "1"; DoFails "2"; DoFails "3"; DoFails "4"; DoFails "5"; DoFails "6"].

(** The error [connect] reports for an attempt that fails. *)
Definition failure_of (a : attempt) : option error :=
  match a with
  | NoAnswer => None
  | BadRequest cause => Some (RequestError cause)
  | DoFails cause => Some (GetError cause)
  | Answer r =>
      if negb (reply_status r =? StatusOK)
      then Some (StatusError (reply_status r) (reply_body r))
      else None
  end.

End Trickle.

(** ** media/segment_reader.go *)

Module Media.

(** [io.EOF] and any other error a reader may report. *)
Inductive error : Type :=
| EOF
| OtherError (msg : string).

(** The [io.Reader] interface: [Read(p []byte) (n int, err error)].  A
    call may change the reader and the buffer; it yields both together
    with [n] and [err]. *)
Class io_Reader (R : Type) : Type :=
  io_Read : R -> list Byte.byte -> R * list Byte.byte * Z * option error.

(** A value of interface type [io.Reader]: a dynamic type that has the
    method, and a value of it. *)
Record Reader : Type := mkReader {
  dyn_type : Type;
  dyn_methods : io_Reader dyn_type;
  dyn_value : dyn_type
}.

(** [type EOSReader struct{}] *)
Inductive EOSReader : Type := mkEOSReader.

#[export] Instance EOSReader_Read : io_Reader EOSReader :=
  fun r p => (r, p, 0, Some EOF).

(** [&EOSReader{}] as an [io.Reader]. *)
Definition eos_stream : Reader := mkReader EOSReader EOSReader_Read mkEOSReader.

Section Dispatcher.

(** [W] is whatever the handlers act upon; [go_discard reader] is the
    effect of [go func() { io.Copy(io.Discard, reader) }()]. *)
Context {W : Type} (go_discard : Reader -> W -> W).

(** [type SegmentHandler func(reader io.Reader)], for handlers that are
    not nil. *)
Definition SegmentHandler : Type := Reader -> W -> W.

Definition NoopReader : SegmentHandler :=
  fun reader => go_discard reader.

(** [SwitchableSegmentReader]; its [mu] is the [RWMutex] of the
    configurations further down. *)
Record SwitchableSegmentReader : Type := mkSwitchable {
  reader : SegmentHandler
}.

Definition NewSwitchableSegmentReader : SwitchableSegmentReader :=
  {| reader := NoopReader |}.

(** *** The three methods, each run on its own from start to end *)

Definition SwitchReader (sr : SwitchableSegmentReader) (newReader : SegmentHandler)
  (w : W) : SwitchableSegmentReader * W :=
  ({| reader := newReader |}, w).

Definition Read (sr : SwitchableSegmentReader) (rd : Reader) (w : W)
  : SwitchableSegmentReader * W :=
  (sr, reader sr rd w).

Definition Close (sr : SwitchableSegmentReader) (w : W)
  : SwitchableSegmentReader * W :=
  (sr, reader sr eos_stream w).

(** *** The methods as interleaved threads *)

Inductive lock_mode : Type := Shared | Exclusive.

(** The statements of the methods that touch shared state.  The store
    to [sr.reader] is not atomic without the lock: it is split into the
    moment it begins and the moment the new value is in place. *)
Inductive instr : Type :=
| Lock
| Unlock
| RLock
| RUnlock
| StoreBegin
| StoreEnd (h : SegmentHandler)
| Invoke (rd : Reader).

Inductive call : Type :=
| CallSwitchReader (newReader : SegmentHandler)
| CallRead (rd : Reader)
| CallClose.

(** The body of each method; a deferred unlock runs last. *)
Definition code (o : call) : list instr :=
  match o with
  | CallSwitchReader newReader => [Lock; StoreBegin; StoreEnd newReader; Unlock]
  | CallRead rd => [RLock; Invoke rd; RUnlock]
  | CallClose => [RLock; Invoke eos_stream; RUnlock]
  end.

(** The mode in which a method takes [mu]. *)
Definition acquires (o : call) : option lock_mode :=
  match code o with
  | Lock :: _ => Some Exclusive
  | RLock :: _ => Some Shared
  | _ => None
  end.

(** [sync.RWMutex]: held by one writer or by any number of readers. *)
Record RWMutex : Type := mkRWMutex {
  writer : bool;
  readers : nat
}.

(** A thread is a call and the position it has reached in its body. *)
Record thread : Type := mkThread {
  th_call : call;
  th_pc : nat
}.

(** [torn] holds while a store to [sr.reader] is under way;
    [saw_torn] records that some [sr.reader(...)] read the field then. *)
Record Config : Type := mkConfig {
  sr : SwitchableSegmentReader;
  torn : bool;
  mu : RWMutex;
  heap : W;
  pool : list thread;
  saw_torn : bool
}.

Definition init (w : W) (calls : list call) : Config :=
  {| sr := NewSwitchableSegmentReader;
     torn := false;
     mu := {| writer := false; readers := O |};
     heap := w;
     pool := (fun o => {| th_call := o; th_pc := O |}) <$> calls;
     saw_torn := false |}.

Definition advance (t : thread) : thread :=
  {| th_call := th_call t; th_pc := S (th_pc t) |}.

(** What executing [i] does to everything but the pool; [None] when the
    instruction has to wait.  A reader is let in whenever no writer
    holds the lock; [sync.RWMutex] also holds new readers back while a
    writer waits, so the real lock allows a subset of these schedules
    (the lock with its waiting writer is [MediaFair] below). *)
Definition exec (i : instr) (c : Config) : option Config :=
  match i with
  | Lock =>
      if negb (writer (mu c)) && Nat.eqb (readers (mu c)) 0 then
        Some (mkConfig (sr c) (torn c) (mkRWMutex true (readers (mu c)))
                (heap c) (pool c) (saw_torn c))
      else None
  | Unlock =>
      Some (mkConfig (sr c) (torn c) (mkRWMutex false (readers (mu c)))
              (heap c) (pool c) (saw_torn c))
  | RLock =>
      if negb (writer (mu c)) then
        Some (mkConfig (sr c) (torn c) (mkRWMutex (writer (mu c)) (S (readers (mu c))))
                (heap c) (pool c) (saw_torn c))
      else None
  | RUnlock =>
      Some (mkConfig (sr c) (torn c) (mkRWMutex (writer (mu c)) (Nat.pred (readers (mu c))))
              (heap c) (pool c) (saw_torn c))
  | StoreBegin =>
      Some (mkConfig (sr c) true (mu c) (heap c) (pool c) (saw_torn c))
  | StoreEnd h =>
      Some (mkConfig {| reader := h |} false (mu c) (heap c) (pool c) (saw_torn c))
  | Invoke rd =>
      if torn c then
        Some (mkConfig (sr c) (torn c) (mu c) (heap c) (pool c) true)
      else
        Some (mkConfig (sr c) (torn c) (mu c) (reader (sr c) rd (heap c))
                (pool c) (saw_torn c))
  end.

(** Thread [n] takes one step. *)
Definition step (n : nat) (c : Config) : option Config :=
  match pool c !! n with
  | None => None
  | Some t =>
      match code (th_call t) !! th_pc t with
      | None => None
      | Some i =>
          match exec i c with
          | None => None
          | Some c1 =>
              Some (mkConfig (sr c1) (torn c1) (mu c1) (heap c1)
                      (<[n := advance t]> (pool c1)) (saw_torn c1))
          end
      end
  end.

Fixpoint run (sched : list nat) (c : Config) : option Config :=
  match sched with
  | [] => Some c
  | n :: sched' =>
      match step n c with
      | None => None
      | Some c1 => run sched' c1
      end
  end.

(** How many threads of the pool are inside a read-locked region, a
    write-locked region, or in the middle of the store. *)
Definition in_shared (t : thread) : nat :=
  match code (th_call t) !! th_pc t with
  | Some (Invoke _) | Some RUnlock => 1
  | _ => 0
  end.

Definition in_exclusive (t : thread) : nat :=
  match code (th_call t) !! th_pc t with
  | Some StoreBegin | Some (StoreEnd _) | Some Unlock => 1
  | _ => 0
  end.

Definition in_store (t : thread) : nat :=
  match code (th_call t) !! th_pc t with
  | Some (StoreEnd _) => 1
  | _ => 0
  end.

Definition tally (f : thread -> nat) (l : list thread) : nat :=
  sum_list (f <$> l).

(** What the lock is there to maintain: the mutex counts the threads
    inside each kind of region, a store is under way in exactly the
    thread that is in the middle of it, a writer excludes all readers,
    and nobody has read the field during a store. *)
Definition lock_invariant (c : Config) : Prop :=
  readers (mu c) = tally in_shared (pool c) /\
  Nat.b2n (writer (mu c)) = tally in_exclusive (pool c) /\
  Nat.b2n (torn c) = tally in_store (pool c) /\
  (writer (mu c) = true -> readers (mu c) = O) /\
  saw_torn c = false.

End Dispatcher.

(** The results of reading from [r] into each of the buffers in turn. *)
Fixpoint reads {R : Type} `{io_Reader R} (r : R) (bufs : list (list Byte.byte))
  : list (list Byte.byte * Z * option error) :=
  match bufs with
  | [] => []
  | p :: bufs' =>
      let '(r', p', n, err) := io_Read r p in
      (p', n, err) :: reads r' bufs'
  end.

(** *** Sample handlers and calls, over a counter of handled streams *)

Definition count_stream : @SegmentHandler nat := fun _ n => S n.

Definition ignore_stream : Reader -> nat -> nat := fun _ n => n.

Definition sample_calls : list (@call nat) :=
  [CallSwitchReader count_stream; CallRead eos_stream; CallClose].

(** The switch runs to its end, then the dispatch and the close
    interleave, both inside their read-locked regions at once. *)
Definition sample_schedule : list nat :=
  [0; 0; 0; 0; 1; 2; 1; 2; 1; 2]%nat.

Definition sample_end : @Config nat :=
  {| sr := {| reader := count_stream |};
     torn := false;
     mu := {| writer := false; readers := O |};
     heap := 2%nat;
     pool := [mkThread (CallSwitchReader count_stream) 4;
              mkThread (CallRead eos_stream) 3;
              mkThread CallClose 3];
     saw_torn := false |}.

End Media.

(** ** Vocabulary for runs of the subscriber *)

Module TrickleRuns.
Import Trickle.

Definition set_count (n : Z) (c : TrickleSubscriber) : TrickleSubscriber :=
  {| url := url c; pendingGet := pendingGet c; idx := idx c;
     preconnectErrorCount := n |}.

Definition set_idx (i : Z) (c : TrickleSubscriber) : TrickleSubscriber :=
  {| url := url c; pendingGet := pendingGet c; idx := i;
     preconnectErrorCount := preconnectErrorCount c |}.

(** What Read and the goroutine do to the index for a connection. *)
Definition next_idx (conn : Response) (i : Z) : Z :=
  if negb (GetSeq (Some conn) =? -1) then GoInt.add (GetSeq (Some conn)) 1 else i.

(** The four ways through Read, with what each one leaves behind. *)
Inductive Read_path (c : TrickleSubscriber) (w : World) : ReadOut -> Prop :=
| path_hit_max :
    5 < preconnectErrorCount c ->
    Read_path c w (mkReadOut None (Some HitMaxPreconnects) c w false)
| path_failed err c1 w1 :
    preconnectErrorCount c <= 5 ->
    current_segment c w = Some (inr (err, c1, w1)) ->
    Read_path c w (mkReadOut None (Some err) c1 w1 false)
| path_closed conn c1 w1 :
    preconnectErrorCount c <= 5 ->
    current_segment c w = Some (inl (conn, c1, w1)) ->
    IsEOS conn = true ->
    Read_path c w (mkReadOut None (Some EOS) c1 w1 false)
| path_stream conn c1 w1 :
    preconnectErrorCount c <= 5 ->
    current_segment c w = Some (inl (conn, c1, w1)) ->
    IsEOS conn = false ->
    Read_path c w (mkReadOut (Some conn) None (set_idx (next_idx conn (idx c1)) c1) w1 true).

(** An answer with status 200, no closed mark, and sequence number [n]. *)
Definition numbered (n : Z) (a : attempt) : Prop :=
  exists r,
    a = Answer r /\
    reply_status r = StatusOK /\
    Header_Get (reply_header r) "Lp-Trickle-Closed" = EmptyString /\
    Atoi (Header_Get (reply_header r) "Lp-Trickle-Seq") = Some n.

(** Answers numbered [n], [n + 1], [n + 2], ... *)
Fixpoint ascending (n : Z) (s : list attempt) : Prop :=
  match s with
  | [] => True
  | a :: s' => numbered n a /\ ascending (n + 1) s'
  end.

(** [k] times: a Read, then the goroutine it started. *)
Fixpoint rounds (k : nat) : list action :=
  match k with
  | O => []
  | S k' => CallRead :: RunBackground :: rounds k'
  end.

(** Nothing has been asked yet: the subscriber is as constructed but for
    its error count, and no goroutine waits. *)
Definition untouched (s : System) : Prop :=
  idx (sub s) = -1 /\ pendingGet (sub s) = None /\ waiting s = O.

(** Every pending connection has status 200. *)
Definition pending_ok (c : TrickleSubscriber) : Prop :=
  forall p, pendingGet c = Some p -> StatusCode p = StatusOK.

(** The connection whose sequence number a step applies to the index:
    the one Read hands out ("Set to use the next index"), the one the
    goroutine stores. *)
Definition applied (a : action) (s : System) : option Response :=
  match a with
  | CallRead =>
      match Read (sub s) (world s) with
      | Some out => ret_conn out
      | None => None
      end
  | RunBackground =>
      match waiting s with
      | O => None
      | S _ =>
          match preconnect (sub s) (world s) with
          | Some (inl nextConn, _) => Some nextConn
          | _ => None
          end
      end
  end.

(** The last concrete sequence number known after [conn] has been
    applied: the number it carries; the one known before when it carries
    -1; none when its header is missing or does not parse. *)
Definition note (last : option Z) (conn : option Response) : option Z :=
  match conn with
  | None => last
  | Some c =>
      match Atoi (Header_Get (Header c) "Lp-Trickle-Seq") with
      | None => None
      | Some v => if v =? -1 then last else Some v
      end
  end.

(** The last concrete sequence number known at the end of a run. *)
Fixpoint last_seen (acts : list action) (s : System) (last : option Z) : option Z :=
  match acts with
  | [] => last
  | a :: acts' =>
      match step a s with
      | None => last
      | Some (_, s1) => last_seen acts' s1 (note last (applied a s))
      end
  end.

(** The index follows the last concrete sequence number, and applying
    the pending connection once more would change nothing. *)
Definition follows (c : TrickleSubscriber) (last : option Z) : Prop :=
  (forall v, last = Some v ->
     GoInt.min_int <= v <= GoInt.max_int /\ idx c = GoInt.add v 1) /\
  (forall p, pendingGet c = Some p -> note last (Some p) = last).

(** Seven open segments for seven Reads, then one closed answer and six
    failures for the seven goroutines those Reads started. *)
Definition closed_then_failures : list attempt :=
  [segment "1"; segment "2"; segment "3"; segment "4"; segment "5";
   segment "6"; segment "7"; closed "8";
   DoFails "1"; DoFails "2"; DoFails "3"; DoFails "4"; DoFails "5"; DoFails "6"].

(** [m], [m + 1], ..., [k] numbers in all. *)
Fixpoint count_from (m : Z) (k : nat) : list Z :=
  match k with
  | O => []
  | S k' => m :: count_from (m + 1) k'
  end.

(** The sequence numbers of the connections handed out. *)
Definition seqs_of (os : list observation) : list Z :=
  (fun conn => GetSeq (Some conn)) <$> handed_out os.

End TrickleRuns.

(** ** Vocabulary for runs of the dispatcher *)

Module MediaRuns.
Import Media.

(** A call of the Read method through an interface value: the method
    table stored in the value is the one that runs. *)
Definition Reader_Read (rd : Reader) (p : list Byte.byte)
  : Reader * list Byte.byte * Z * option error :=
  let '(v, p', n, err) := @io_Read (dyn_type rd) (dyn_methods rd) (dyn_value rd) p in
  (mkReader (dyn_type rd) (dyn_methods rd) v, p', n, err).

(** The results of reading the stream [rd] into each buffer in turn. *)
Fixpoint stream_reads (rd : Reader) (bufs : list (list Byte.byte))
  : list (list Byte.byte * Z * option error) :=
  match bufs with
  | [] => []
  | p :: bufs' =>
      let '(rd', p', n, err) := Reader_Read rd p in
      (p', n, err) :: stream_reads rd' bufs'
  end.

(** A handler that reads the stream it is given into each of [bufs] in
    turn and appends what every Read returned to a log. *)
Definition reading_handler (bufs : list (list Byte.byte))
  : @SegmentHandler (list (list Byte.byte * Z * option error)) :=
  fun rd log => log ++ stream_reads rd bufs.

Section Calls.
Context {W : Type}.

(** A call as one uninterrupted method call. *)
Definition apply_call (o : @call W) (sr : @SwitchableSegmentReader W) (w : W)
  : @SwitchableSegmentReader W * W :=
  match o with
  | CallSwitchReader newReader => SwitchReader sr newReader w
  | CallRead rd => Read sr rd w
  | CallClose => Close sr w
  end.

(** The thread has run its body to the end. *)
Definition finished (t : @thread W) : Prop :=
  th_pc t = length (code (th_call t)).

(** The schedule that runs thread [n] alone through the body of [o]. *)
Definition alone (n : nat) (o : @call W) : list nat :=
  replicate (length (code o)) n.

End Calls.

(** The sample calls with the dispatch just inside its read lock. *)
Definition sample_reading : @Config nat :=
  {| sr := NewSwitchableSegmentReader ignore_stream;
     torn := false;
     mu := {| writer := false; readers := 1 |};
     heap := O;
     pool := [mkThread (CallSwitchReader count_stream) 0;
              mkThread (CallRead eos_stream) 1;
              mkThread CallClose 0];
     saw_torn := false |}.

End MediaRuns.

(** ** The dispatcher over the lock as [sync.RWMutex] builds it *)

Module MediaFair.
Import Media.

Section Fair.
Context {W : Type} (go_discard : Reader -> W -> W).

(** The steps of the methods, with [RWMutex.Lock] in its two parts:
    taking the writers' mutex [rw.w] and announcing the writer to the
    readers, then waiting until the readers that are inside have left. *)
Inductive fair_instr : Type :=
| Announce
| Drain
| Release
| Enter
| Leave
| BeginStore
| EndStore (h : @SegmentHandler W)
| CallHandler (rd : Reader).

Definition fair_code (o : @call W) : list fair_instr :=
  match o with
  | CallSwitchReader newReader =>
      [Announce; Drain; BeginStore; EndStore newReader; Release]
  | CallRead rd => [Enter; CallHandler rd; Leave]
  | CallClose => [Enter; CallHandler eos_stream; Leave]
  end.

(** [announced]: some writer holds [rw.w], waiting or writing, which is
    when [readerCount] is negative; [writing]: that writer has the lock;
    [inside]: the readers that hold the lock. *)
Record FairMutex : Type := mkFairMutex {
  announced : bool;
  writing : bool;
  inside : nat
}.

Record FairConfig : Type := mkFairConfig {
  f_sr : @SwitchableSegmentReader W;
  f_torn : bool;
  f_mu : FairMutex;
  f_heap : W;
  f_pool : list (@thread W);
  f_saw_torn : bool
}.

Definition fair_init (w : W) (calls : list (@call W)) : FairConfig :=
  {| f_sr := NewSwitchableSegmentReader go_discard;
     f_torn := false;
     f_mu := {| announced := false; writing := false; inside := O |};
     f_heap := w;
     f_pool := (fun o => {| th_call := o; th_pc := O |}) <$> calls;
     f_saw_torn := false |}.

(** [RLock] goes through only while no writer is announced; [Lock]
    announces only when no other writer holds [rw.w], and gets the lock
    only once no reader is inside; the unlocks never wait. *)
Definition fair_exec (i : fair_instr) (c : FairConfig) : option FairConfig :=
  match i with
  | Announce =>
      if negb (announced (f_mu c)) then
        Some (mkFairConfig (f_sr c) (f_torn c)
                (mkFairMutex true (writing (f_mu c)) (inside (f_mu c)))
                (f_heap c) (f_pool c) (f_saw_torn c))
      else None
  | Drain =>
      if Nat.eqb (inside (f_mu c)) 0 then
        Some (mkFairConfig (f_sr c) (f_torn c)
                (mkFairMutex (announced (f_mu c)) true (inside (f_mu c)))
                (f_heap c) (f_pool c) (f_saw_torn c))
      else None
  | Release =>
      Some (mkFairConfig (f_sr c) (f_torn c)
              (mkFairMutex false false (inside (f_mu c)))
              (f_heap c) (f_pool c) (f_saw_torn c))
  | Enter =>
      if negb (announced (f_mu c)) then
        Some (mkFairConfig (f_sr c) (f_torn c)
                (mkFairMutex (announced (f_mu c)) (writing (f_mu c)) (S (inside (f_mu c))))
                (f_heap c) (f_pool c) (f_saw_torn c))
      else None
  | Leave =>
      Some (mkFairConfig (f_sr c) (f_torn c)
              (mkFairMutex (announced (f_mu c)) (writing (f_mu c))
                 (Nat.pred (inside (f_mu c))))
              (f_heap c) (f_pool c) (f_saw_torn c))
  | BeginStore =>
      Some (mkFairConfig (f_sr c) true (f_mu c) (f_heap c) (f_pool c) (f_saw_torn c))
  | EndStore h =>
      Some (mkFairConfig {| reader := h |} false (f_mu c) (f_heap c) (f_pool c)
              (f_saw_torn c))
  | CallHandler rd =>
      if f_torn c then
        Some (mkFairConfig (f_sr c) (f_torn c) (f_mu c) (f_heap c) (f_pool c) true)
      else
        Some (mkFairConfig (f_sr c) (f_torn c) (f_mu c)
                (reader (f_sr c) rd (f_heap c)) (f_pool c) (f_saw_torn c))
  end.

Definition fair_step (n : nat) (c : FairConfig) : option FairConfig :=
  match f_pool c !! n with
  | None => None
  | Some t =>
      match fair_code (th_call t) !! th_pc t with
      | None => None
      | Some i =>
          match fair_exec i c with
          | None => None
          | Some c1 =>
              Some (mkFairConfig (f_sr c1) (f_torn c1) (f_mu c1) (f_heap c1)
                      (<[n := advance t]> (f_pool c1)) (f_saw_torn c1))
          end
      end
  end.

Fixpoint fair_run (sched : list nat) (c : FairConfig) : option FairConfig :=
  match sched with
  | [] => Some c
  | n :: sched' =>
      match fair_step n c with
      | None => None
      | Some c1 => fair_run sched' c1
      end
  end.

(** Threads that hold the read lock, and threads that hold [rw.w]. *)
Definition reading_now (t : @thread W) : nat :=
  match fair_code (th_call t) !! th_pc t with
  | Some (CallHandler _) | Some Leave => 1
  | _ => 0
  end.

Definition holding_w (t : @thread W) : nat :=
  match fair_code (th_call t) !! th_pc t with
  | Some Drain | Some BeginStore | Some (EndStore _) | Some Release => 1
  | _ => 0
  end.

Definition fair_invariant (c : FairConfig) : Prop :=
  inside (f_mu c) = tally reading_now (f_pool c) /\
  Nat.b2n (announced (f_mu c)) = tally holding_w (f_pool c).

End Fair.

(** The sample calls with the switch announced and waiting for the
    dispatch, which is inside, while the close is held back. *)
Definition sample_waiting_writer : @FairConfig nat :=
  {| f_sr := NewSwitchableSegmentReader ignore_stream;
     f_torn := false;
     f_mu := {| announced := true; writing := false; inside := 1 |};
     f_heap := O;
     f_pool := [mkThread (CallSwitchReader count_stream) 1;
                mkThread (CallRead eos_stream) 1;
                mkThread CallClose 0];
     f_saw_torn := false |}.

End MediaFair.

(** * Properties *)

Module GoIntFacts.
Import GoInt.

Lemma wrap_id z : min_int <= z <= max_int -> wrap z = z.
Proof.
  unfold wrap, min_int, max_int. intros Hz.
  rewrite Z.mod_small; lia.
Qed.

Lemma add_small a b : min_int <= a + b <= max_int -> add a b = a + b.
Proof. apply wrap_id. Qed.

Lemma in_range_spec z : in_range z = true <-> min_int <= z <= max_int.
Proof. unfold in_range. rewrite andb_true_iff, !Z.leb_le. tauto. Qed.

Lemma add_max_wraps : add max_int 1 = min_int.
Proof. reflexivity. Qed.

End GoIntFacts.

Module GoLibFacts.

Example Atoi_7 : Atoi "7" = Some 7.
Proof. reflexivity. Qed.
Example Atoi_negative : Atoi "-12" = Some (-12).
Proof. reflexivity. Qed.
Example Atoi_plus : Atoi "+3" = Some 3.
Proof. reflexivity. Qed.
Example Atoi_empty : Atoi EmptyString = None.
Proof. reflexivity. Qed.
Example Atoi_sign_only : Atoi "-" = None.
Proof. reflexivity. Qed.
Example Atoi_trailing_letter : Atoi "12a" = None.
Proof. reflexivity. Qed.
Example Atoi_max_int : Atoi "9223372036854775807" = Some GoInt.max_int.
Proof. reflexivity. Qed.
Example Atoi_above_max_int : Atoi "9223372036854775808" = None.
Proof. reflexivity. Qed.
Example Atoi_min_int : Atoi "-9223372036854775808" = Some GoInt.min_int.
Proof. reflexivity. Qed.

Lemma Header_Get_missing (h : http_Header) key :
  h !! key = None -> Header_Get h key = EmptyString.
Proof. unfold Header_Get. now intros ->. Qed.

End GoLibFacts.

Module TrickleFacts.
Import Trickle.

#[local] Arguments GetSeq : simpl never.
#[local] Arguments IsEOS : simpl never.
#[local] Arguments GoInt.add : simpl never.

(** ** One call of Read *)

Lemma Read_hit_max c w :
  5 < preconnectErrorCount c ->
  Read c w = Some (mkReadOut None (Some HitMaxPreconnects) c w false).
Proof.
  intros H. unfold Read.
  destruct (Z.ltb_spec 5 (preconnectErrorCount c)); [reflexivity | lia].
Qed.

Lemma Read_below_max c w :
  preconnectErrorCount c <= 5 ->
  Read c w =
    match current_segment c w with
    | None => None
    | Some (inr (err, c1, w1)) => Some (mkReadOut None (Some err) c1 w1 false)
    | Some (inl (conn, c1, w1)) =>
        if IsEOS conn then Some (mkReadOut None (Some EOS) c1 w1 false)
        else
          Some (mkReadOut (Some conn) None
                  (if negb (GetSeq (Some conn) =? -1) then
                     {| url := url c1; pendingGet := pendingGet c1;
                        idx := GoInt.add (GetSeq (Some conn)) 1;
                        preconnectErrorCount := preconnectErrorCount c1 |}
                   else c1)
                  w1 true)
    end.
Proof.
  intros H. unfold Read.
  destruct (Z.ltb_spec 5 (preconnectErrorCount c)); [lia | reflexivity].
Qed.

(** C9: a Read that finds no pending connection and whose synchronous
    preconnect fails returns that failure; the error count goes up by
    exactly one and the index, the (absent) pending connection and the
    URL stay as they were; no goroutine is started. *)
Theorem C9_failed_sync_preconnect c w err w1 :
  pendingGet c = None ->
  GoInt.min_int <= preconnectErrorCount c <= 5 ->
  preconnect c w = Some (inr err, w1) ->
  exists out,
    Read c w = Some out /\
    ret_conn out = None /\
    ret_err out = Some err /\
    preconnectErrorCount (sub_after out) = preconnectErrorCount c + 1 /\
    idx (sub_after out) = idx c /\
    pendingGet (sub_after out) = None /\
    url (sub_after out) = url c /\
    world_after out = w1 /\
    started out = false.
Proof.
  intros Hp [Hlo Hhi] Hpre.
  rewrite Read_below_max by exact Hhi.
  unfold current_segment. rewrite Hp, Hpre.
  eexists. split; [reflexivity|]. cbn.
  repeat split; try assumption.
  apply GoIntFacts.add_small. unfold GoInt.min_int, GoInt.max_int in *. lia.
Qed.

Lemma C9_failed_sync_preconnect_witness :
  exists out,
    Read (NewTrickleSubscriber "u") (mkWorld [DoFails "refused"] [] O) = Some out /\
    ret_conn out = None /\
    ret_err out = Some (GetError "refused") /\
    preconnectErrorCount (sub_after out) = 0 + 1 /\
    idx (sub_after out) = -1 /\
    pendingGet (sub_after out) = None /\
    url (sub_after out) = "u" /\
    world_after out = mkWorld [] [mkRequest "u" (-1)] O /\
    started out = false.
Proof.
  apply (C9_failed_sync_preconnect (NewTrickleSubscriber "u")
           (mkWorld [DoFails "refused"] [] O)).
  - reflexivity.
  - vm_compute. split; discriminate.
  - reflexivity.
Defined.

(** ** End of stream *)

Lemma IsEOS_closed_header conn :
  IsEOS conn = true <-> Header_Get (Header conn) "Lp-Trickle-Closed" <> EmptyString.
Proof.
  unfold IsEOS. rewrite negb_true_iff. apply String.eqb_neq.
Qed.

(** C5 (as the code has it): when Read starts with an error count of at
    most 5 and the connection it works on, pending or just fetched,
    carries a non-empty Lp-Trickle-Closed header, Read returns EOS and no
    stream.  The subscriber is left exactly as it stood once the
    connection was obtained: the EOS branch does not touch the error
    count (nor anything else), so with a pending connection the whole
    subscriber is unchanged, and after a synchronous preconnect the
    count is the 0 that the successful preconnect stored. *)
Theorem C5_closed_connection_is_EOS c w conn c1 w1 :
  preconnectErrorCount c <= 5 ->
  current_segment c w = Some (inl (conn, c1, w1)) ->
  Header_Get (Header conn) "Lp-Trickle-Closed" <> EmptyString ->
  exists out,
    Read c w = Some out /\
    ret_conn out = None /\
    ret_err out = Some EOS /\
    started out = false /\
    sub_after out = c1 /\
    world_after out = w1 /\
    preconnectErrorCount (sub_after out) = preconnectErrorCount c1 /\
    (pendingGet c = Some conn -> sub_after out = c /\ world_after out = w) /\
    (pendingGet c = None -> preconnectErrorCount (sub_after out) = 0).
Proof.
  intros Hle Hcur Hclosed.
  apply IsEOS_closed_header in Hclosed.
  rewrite Read_below_max, Hcur, Hclosed by exact Hle.
  eexists. split; [reflexivity|]. cbn.
  do 6 (split; [reflexivity|]).
  unfold current_segment in Hcur.
  split; intros Hp; rewrite Hp in Hcur.
  - split; congruence.
  - destruct (preconnect c w) as [[[p|e] w2]|]; inversion Hcur; reflexivity.
Qed.

Lemma C5_closed_connection_is_EOS_witness :
  exists out,
    Read (NewTrickleSubscriber "u") (mkWorld [closed "4"] [] O) = Some out /\
    ret_conn out = None /\
    ret_err out = Some EOS /\
    started out = false /\
    sub_after out = NewTrickleSubscriber "u" /\
    world_after out = mkWorld [] [mkRequest "u" (-1)] 1%nat /\
    preconnectErrorCount (sub_after out) = 0 /\
    (pendingGet (NewTrickleSubscriber "u") =
       Some (mkResponse O 200 (<[ "Lp-Trickle-Closed" := ["1"] ]> {[ "Lp-Trickle-Seq" := ["4"] ]}) EmptyString) ->
     sub_after out = NewTrickleSubscriber "u" /\
     world_after out = mkWorld [closed "4"] [] O) /\
    (pendingGet (NewTrickleSubscriber "u") = None ->
     preconnectErrorCount (sub_after out) = 0).
Proof.
  apply (C5_closed_connection_is_EOS (NewTrickleSubscriber "u")
           (mkWorld [closed "4"] [] O)
           (mkResponse O 200 (<[ "Lp-Trickle-Closed" := ["1"] ]> {[ "Lp-Trickle-Seq" := ["4"] ]}) EmptyString)).
  - vm_compute. discriminate.
  - reflexivity.
  - vm_compute. discriminate.
Defined.

(** ** Failing attempts and the error count *)

Lemma connect_failure c a w e :
  failure_of a = Some e ->
  exists w1,
    connect c a w = (Failed e, w1) /\
    script w1 = script w /\ next_addr w1 = next_addr w.
Proof.
  destruct a as [|cause|cause|r]; cbn; intros H; try discriminate.
  - inversion H. eauto.
  - inversion H. eexists. split; [reflexivity|]. split; reflexivity.
  - destruct (negb (reply_status r =? StatusOK)); inversion H.
    eexists. split; [reflexivity|]. split; reflexivity.
Qed.

Lemma failure_is_not_exhaustion a e :
  failure_of a = Some e -> e <> HitMaxPreconnects /\ e <> EOS.
Proof.
  destruct a as [|cause|cause|r]; cbn; intros H; try discriminate.
  - inversion H. split; discriminate.
  - inversion H. split; discriminate.
  - destruct (negb (reply_status r =? StatusOK)); inversion H. split; discriminate.
Qed.

Lemma bump_bump n m c : bump n (bump m c) = bump (m + n) c.
Proof. unfold bump. cbn. f_equal. lia. Qed.

Lemma bump_0 c : bump 0 c = c.
Proof. destruct c. unfold bump. cbn. now rewrite Z.add_0_r. Qed.

(** One Read that meets a failing attempt. *)
Lemma failing_read c w k a s' e :
  pendingGet c = None ->
  0 <= preconnectErrorCount c <= 5 ->
  script w = a :: s' ->
  failure_of a = Some e ->
  exists w1,
    step CallRead (mkSystem c w k) =
      Some (Returned None (Some e), mkSystem (bump 1 c) w1 k) /\
    script w1 = s'.
Proof.
  intros Hp Hc Hs Ha.
  destruct (connect_failure c a (with_script s' w) e Ha) as (w1 & Hcon & Hs1 & _).
  exists w1. split; [|exact Hs1].
  unfold step. cbn [sub world waiting].
  rewrite Read_below_max by lia.
  unfold current_segment, preconnect. rewrite Hp, Hs.
  cbn [preconnect_loop]. rewrite Hcon. cbn.
  rewrite GoIntFacts.add_small by (unfold GoInt.min_int, GoInt.max_int; lia).
  unfold bump. rewrite Hp. reflexivity.
Qed.

(** A run of Reads that each meet one failing attempt: every Read
    returns the failure of its own attempt and adds one to the count. *)
Lemma failing_reads fs : forall es c w k rest,
  Forall2 (fun a e => failure_of a = Some e) fs es ->
  pendingGet c = None ->
  0 <= preconnectErrorCount c ->
  preconnectErrorCount c + Z.of_nat (length fs) <= 6 ->
  script w = fs ++ rest ->
  exists w',
    run (replicate (length fs) CallRead) (mkSystem c w k) =
      Some ((fun e => Returned None (Some e)) <$> es,
            mkSystem (bump (Z.of_nat (length fs)) c) w' k) /\
    script w' = rest.
Proof.
  induction fs as [|a fs IH]; intros es c w k rest HF Hp H0 H6 Hs.
  - inversion HF; subst. cbn. exists w. split; [|exact Hs].
    now rewrite bump_0.
  - inversion HF as [|a' e fs' es' Ha HF']; subst.
    cbn [length] in H6.
    destruct (failing_read c w k a (fs ++ rest) e Hp ltac:(lia) Hs Ha)
      as (w1 & Hstep & Hs1).
    destruct (IH es' (bump 1 c) w1 k rest HF' Hp ltac:(cbn; lia) ltac:(cbn; lia) Hs1)
      as (w' & Hrun & Hs').
    exists w'. split; [|exact Hs'].
    cbn [length replicate run]. rewrite Hstep, Hrun, bump_bump.
    rewrite fmap_cons. repeat f_equal. lia.
Qed.

(** C2 (as the code has it): with six failing attempts in a row, each of
    the six Reads, the sixth included, returns the failure of its own
    attempt (never the exhaustion error) and leaves the count at 6; it is
    the seventh Read that returns "Hit max preconnects", and it changes
    neither the subscriber nor the world (no request is made).  In
    general a Read that starts with a count above 5 returns that error
    with subscriber and world untouched. *)
Theorem C2_exhausted_on_seventh_read u fs es rest :
  length fs = 6%nat ->
  Forall2 (fun a e => failure_of a = Some e) fs es ->
  (exists s6,
     run (replicate 6 CallRead) (start u (fs ++ rest)) =
       Some ((fun e => Returned None (Some e)) <$> es, s6) /\
     Forall (fun e => e <> HitMaxPreconnects) es /\
     preconnectErrorCount (sub s6) = 6 /\
     script (world s6) = rest /\
     step CallRead s6 = Some (Returned None (Some HitMaxPreconnects), s6)) /\
  (forall c w, 5 < preconnectErrorCount c ->
     Read c w = Some (mkReadOut None (Some HitMaxPreconnects) c w false)).
Proof.
  intros Hlen HF. split; [|apply Read_hit_max].
  destruct (failing_reads fs es (NewTrickleSubscriber u)
              (mkWorld (fs ++ rest) [] O) O rest HF)
    as (w' & Hrun & Hs); try reflexivity.
  - rewrite Hlen. cbn. lia.
  - rewrite Hlen in Hrun. unfold start.
    eexists. split; [exact Hrun|].
    split.
    { clear -HF. induction HF; constructor; [|assumption].
      eapply failure_is_not_exhaustion; eassumption. }
    split; [reflexivity|]. split; [exact Hs|].
    unfold step. rewrite Read_hit_max by (cbn; lia). reflexivity.
Qed.

Lemma C2_exhausted_on_seventh_read_witness :
  (exists s6,
     run (replicate 6 CallRead) (start "u" (six_failures ++ [segment "1"])) =
       Some ((fun e => Returned None (Some e)) <$>
               [GetError "1"; GetError "2"; GetError "3";
                GetError "4"; GetError "5"; GetError "6"], s6) /\
     Forall (fun e => e <> HitMaxPreconnects)
       [GetError "1"; GetError "2"; GetError "3";
        GetError "4"; GetError "5"; GetError "6"] /\
     preconnectErrorCount (sub s6) = 6 /\
     script (world s6) = [segment "1"] /\
     step CallRead s6 = Some (Returned None (Some HitMaxPreconnects), s6)) /\
  (forall c w, 5 < preconnectErrorCount c ->
     Read c w = Some (mkReadOut None (Some HitMaxPreconnects) c w false)).
Proof.
  apply (C2_exhausted_on_seventh_read "u" six_failures).
  - reflexivity.
  - repeat constructor.
Defined.

(** C2 (as stated) fails: after five failures the sixth Read still
    connects, and what it returns is the sixth connect failure, not the
    exhaustion error. *)
Lemma C2_sixth_read_returns_connect_error :
  exists os s6,
    run (replicate 6 CallRead) (start "u" six_failures) = Some (os, s6) /\
    os !! 5%nat = Some (Returned None (Some (GetError "6"))) /\
    os !! 5%nat <> Some (Returned None (Some HitMaxPreconnects)) /\
    length (sent (world s6)) = 6%nat.
Proof.
  eexists. eexists. split; [vm_compute; reflexivity|].
  split; [reflexivity|]. split; [discriminate | reflexivity].
Qed.

(** ** Sequence numbers *)

Lemma Atoi_in_range s v :
  Atoi s = Some v -> GoInt.min_int <= v <= GoInt.max_int.
Proof.
  unfold Atoi. destruct s as [|ch rest]; [discriminate|].
  cbv zeta.
  destruct (if (Ascii.eqb ch "-" || Ascii.eqb ch "+")%bool then rest else String ch rest);
    [discriminate|].
  destruct (parse_digits 0 _) as [n|]; [|discriminate].
  destruct (GoInt.in_range _) eqn:Hr; [|discriminate].
  intros [= <-]. now apply GoIntFacts.in_range_spec.
Qed.

Lemma GetSeq_numbered conn seq :
  Atoi (Header_Get (Header conn) "Lp-Trickle-Seq") = Some seq ->
  GetSeq (Some conn) = seq.
Proof. unfold GetSeq. now intros ->. Qed.

Lemma GetSeq_unparsable conn :
  Atoi (Header_Get (Header conn) "Lp-Trickle-Seq") = None ->
  GetSeq (Some conn) = -98.
Proof. unfold GetSeq. now intros ->. Qed.

(** ** Requests made by one preconnect *)

Lemma connect_sent c a w r w1 :
  connect c a w = (r, w1) ->
  (sent w1 = sent w \/ sent w1 = sent w ++ [request_of c]) /\
  (forall resp, r = Connected resp -> sent w1 = sent w ++ [request_of c]) /\
  (r = Cancelled -> sent w1 = sent w ++ [request_of c]).
Proof.
  unfold connect, request_of.
  destruct a as [|cause|cause|rp]; cbn.
  - intros [= <- <-]. cbn. repeat split; auto; discriminate.
  - intros [= <- <-]. repeat split; auto; discriminate.
  - intros [= <- <-]. cbn. repeat split; auto; discriminate.
  - destruct (negb (reply_status rp =? StatusOK)); intros [= <- <-]; cbn;
      repeat split; auto; discriminate.
Qed.

(** All requests of one preconnect go to the index the subscriber holds
    at that time, and a connection is never obtained without one. *)
Lemma preconnect_loop_sent c s : forall w r w1,
  preconnect_loop c s w = Some (r, w1) ->
  exists more,
    sent w1 = sent w ++ more /\
    Forall (eq (request_of c)) more /\
    (forall resp, r = inl resp -> more <> []).
Proof.
  induction s as [|a s IH]; intros w r w1; cbn [preconnect_loop]; [discriminate|].
  destruct (connect c a (with_script s w)) as [cr w0] eqn:Hc.
  destruct (connect_sent _ _ _ _ _ Hc) as (Hor & Hconn & Hcan).
  cbn [with_script sent] in Hor, Hconn, Hcan.
  destruct cr as [|err|resp].
  - intros H. apply IH in H as (more & Hs & HF & Hne).
    exists (request_of c :: more). rewrite Hs, Hcan by reflexivity.
    rewrite <- app_assoc. split; [reflexivity|].
    split; [constructor; auto | discriminate].
  - intros [= <- <-]. destruct Hor as [Hor|Hor]; rewrite Hor.
    + exists []. rewrite app_nil_r. repeat split; auto; discriminate.
    + exists [request_of c]. repeat split; auto; discriminate.
  - intros [= <- <-]. exists [request_of c].
    rewrite (Hconn resp) by reflexivity. repeat split; auto; discriminate.
Qed.

Lemma preconnect_sent c w r w1 :
  preconnect c w = Some (r, w1) ->
  (sent w1 = sent w /\ (forall resp, r <> inl resp)) \/
  exists more, sent w1 = sent w ++ request_of c :: more.
Proof.
  unfold preconnect. intros H.
  apply preconnect_loop_sent in H as (more & Hs & HF & Hne).
  destruct more as [|rq more].
  - left. rewrite Hs, app_nil_r. split; [reflexivity|].
    intros resp ->. now apply (Hne resp).
  - right. inversion HF; subst. eauto.
Qed.

(** ** The index of the following fetch *)


Lemma negb_eqb_minus1 seq : seq <> -1 -> negb (seq =? -1) = true.
Proof. intros H. apply negb_true_iff, Z.eqb_neq, H. Qed.


Lemma step_monotone a s o s' :
  step a s = Some (o, s') ->
  url (sub s') = url (sub s) /\
  exists more, sent (world s') = sent (world s) ++ more.
Proof.
  assert (Hpre : forall c w r w1, preconnect c w = Some (r, w1) ->
                   exists more, sent w1 = sent w ++ more).
  { intros c w r w1 H. apply preconnect_loop_sent in H as (more & Hs & _). eauto. }
  assert (Hrefl : forall w : World, exists more, sent w = sent w ++ more).
  { intros w. exists []. now rewrite app_nil_r. }
  destruct s as [c w k]. destruct a; cbn [step sub world waiting].
  - unfold Read, current_segment.
    destruct (5 <? preconnectErrorCount c).
    { intros [= <- <-]. cbn. auto. }
    destruct (pendingGet c) as [p|].
    + destruct (IsEOS p); intros [= <- <-]; cbn; [auto|].
      split; [now destruct (negb _)|auto].
    + destruct (preconnect c w) as [[[p|e] w1]|] eqn:E; [| |discriminate].
      * apply Hpre in E.
        destruct (IsEOS p); intros [= <- <-]; cbn; [auto|].
        split; [now destruct (negb _)|auto].
      * apply Hpre in E. intros [= <- <-]. cbn. auto.
  - destruct k as [|k]; [discriminate|]. unfold background.
    destruct (preconnect c w) as [[[p|e] w1]|] eqn:E; [| |discriminate];
      apply Hpre in E; intros [= <- <-]; cbn; auto.
Qed.

Lemma run_monotone acts : forall s os s',
  run acts s = Some (os, s') ->
  url (sub s') = url (sub s) /\
  exists more, sent (world s') = sent (world s) ++ more.
Proof.
  induction acts as [|a acts IH]; intros s os s'; cbn [run].
  - intros [= <- <-]. split; [reflexivity|]. exists []. now rewrite app_nil_r.
  - destruct (step a s) as [[o s1]|] eqn:Hstep; [|discriminate].
    destruct (run acts s1) as [[os1 s2]|] eqn:Hrun; [|discriminate].
    intros [= <- <-].
    apply step_monotone in Hstep as (Hu1 & m1 & Hs1).
    apply IH in Hrun as (Hu2 & m2 & Hs2).
    split; [congruence|]. exists (m1 ++ m2). now rewrite Hs2, Hs1, app_assoc.
Qed.





Example fetch_after_segment_7 :
  (fun r => req_idx <$> sent (world (snd r))) <$>
    run [CallRead; RunBackground] (start "u" [segment "7"; segment "8"]) =
  Some [-1; 8].
Proof. vm_compute. reflexivity. Qed.

(** ** The pending connection *)

(** Read never writes [pendingGet]: only the goroutine does, and only
    when its preconnect succeeds. *)
Lemma Read_keeps_pendingGet c w out :
  Read c w = Some out -> pendingGet (sub_after out) = pendingGet c.
Proof.
  unfold Read, current_segment.
  destruct (5 <? preconnectErrorCount c); [now intros [= <-]|].
  destruct (pendingGet c) as [p|] eqn:Hp.
  - destruct (IsEOS p); intros [= <-]; cbn; [assumption|].
    now destruct (negb _).
  - destruct (preconnect c w) as [[[p|e] w1]|]; [| |discriminate].
    + destruct (IsEOS p); intros [= <-]; cbn; [reflexivity|].
      now destruct (negb _).
    + now intros [= <-].
Qed.

Lemma background_failure_keeps_pendingGet c w c' w' :
  background c w = Some (c', w') ->
  pendingGet c' = pendingGet c \/ preconnectErrorCount c' = 0.
Proof.
  unfold background.
  destruct (preconnect c w) as [[[p|e] w1]|]; [| |discriminate];
    intros [= <- <-]; cbn; auto.
Qed.

(** C1 (evaluating the code): the first Read fetches segment 5, the
    look-ahead stores segment 6 as pending, the second Read hands it out,
    the second look-ahead fails, and the third Read hands out the very
    same connection again: the pending connection was never cleared, and
    is not the connection for the index (7) that would be fetched next. *)
Theorem C1_pending_connection_handed_out_twice :
  exists os s',
    run [CallRead; RunBackground; CallRead; RunBackground; CallRead]
      (start "u" [segment "5"; segment "6"; DoFails "reset"]) = Some (os, s') /\
    handed_out os =
      [mkResponse 0 200 {[ "Lp-Trickle-Seq" := ["5"] ]} "segment";
       mkResponse 1 200 {[ "Lp-Trickle-Seq" := ["6"] ]} "segment";
       mkResponse 1 200 {[ "Lp-Trickle-Seq" := ["6"] ]} "segment"] /\
    ~ NoDup (handed_out os) /\
    pendingGet (sub s') =
      Some (mkResponse 1 200 {[ "Lp-Trickle-Seq" := ["6"] ]} "segment") /\
    idx (sub s') = 7 /\
    sent (world s') = [mkRequest "u" (-1); mkRequest "u" 6; mkRequest "u" 7].
Proof.
  eexists. eexists. split; [vm_compute; reflexivity|].
  split; [reflexivity|]. split; [|repeat split].
  cbn [handed_out]. intros HN.
  apply NoDup_cons in HN as [_ HN]. apply NoDup_cons in HN as [Hin _].
  apply Hin. left.
Qed.

(** ** A sequence header that does not parse *)

Lemma Read_unparsable_seq c w conn c1 w1 :
  preconnectErrorCount c <= 5 ->
  current_segment c w = Some (inl (conn, c1, w1)) ->
  IsEOS conn = false ->
  Atoi (Header_Get (Header conn) "Lp-Trickle-Seq") = None ->
  Read c w =
    Some (mkReadOut (Some conn) None
            {| url := url c1; pendingGet := pendingGet c1; idx := -97;
               preconnectErrorCount := preconnectErrorCount c1 |}
            w1 true).
Proof.
  intros Hle Hcur Heos Hseq.
  rewrite Read_below_max, Hcur, Heos by exact Hle.
  now rewrite (GetSeq_unparsable _ Hseq).
Qed.

(** C3 (evaluating the code): a response without Lp-Trickle-Seq, and one
    whose Lp-Trickle-Seq is not a number, are both handed out without
    error, but the index moves to -97 (GetSeq's -98 plus one), and -97,
    not the -1 of the constructor, is what the next fetch asks for. *)
Theorem C3_unparsable_seq_requests_minus_97 :
  (exists s',
     run [CallRead; RunBackground] (start "u" [unnumbered; segment "9"]) =
       Some ([Returned (Some (mkResponse 0 200 ∅ "segment")) None; Prefetched], s') /\
     sent (world s') = [mkRequest "u" (-1); mkRequest "u" (-97)]) /\
  (exists s',
     run [CallRead; RunBackground] (start "u" [segment "abc"; segment "9"]) =
       Some ([Returned (Some (mkResponse 0 200 {[ "Lp-Trickle-Seq" := ["abc"] ]} "segment"))
                None; Prefetched], s') /\
     sent (world s') = [mkRequest "u" (-1); mkRequest "u" (-97)]) /\
  idx (NewTrickleSubscriber "u") = -1.
Proof.
  split; [|split; [|reflexivity]];
    (eexists; split; [vm_compute; reflexivity | reflexivity]).
Qed.

(** C4 (as stated) fails: segment 7 is seen, the look-ahead asks for
    index 8 and gets a response without a sequence header, and the fetch
    after that asks for index -97, which is not above 7. *)
Lemma C4_request_after_unnumbered_segment_goes_back :
  exists os s',
    run [CallRead; RunBackground; CallRead; RunBackground]
      (start "u" [segment "7"; unnumbered; segment "9"]) = Some (os, s') /\
    handed_out os =
      [mkResponse 0 200 {[ "Lp-Trickle-Seq" := ["7"] ]} "segment";
       mkResponse 1 200 ∅ "segment"] /\
    req_idx <$> sent (world s') = [-1; 8; -97] /\
    ~ (7 < -97).
Proof.
  eexists. eexists. split; [vm_compute; reflexivity|].
  split; [reflexivity|]. split; [reflexivity|]. lia.
Qed.

(** ** After the end of the stream *)

Lemma step_EOS_from_pending s p s1 :
  pendingGet (sub s) = Some p ->
  step CallRead s = Some (Returned None (Some EOS), s1) ->
  s1 = s /\ IsEOS p = true /\ preconnectErrorCount (sub s) <= 5.
Proof.
  destruct s as [c w k]. cbn [step sub world waiting]. intros Hp.
  unfold Read, current_segment. rewrite Hp.
  destruct (Z.ltb_spec 5 (preconnectErrorCount c)); [discriminate|].
  destruct (IsEOS p); [|discriminate].
  cbn. intros [= <-]. auto.
Qed.

(** C10 (as the code has it): a Read that returns EOS because the
    pending connection is closed changes nothing at all: the pending
    connection stays, no goroutine is started, no request is made.
    When no look-ahead goroutine started by an earlier Read is still
    waiting for the mutex, nothing but Read can run, every later Read
    returns EOS again, and subscriber and world stay as they are. *)
Theorem C10_EOS_absorbing_without_waiting_goroutine s p s1 :
  pendingGet (sub s) = Some p ->
  step CallRead s = Some (Returned None (Some EOS), s1) ->
  s1 = s /\
  (waiting s = O ->
   (forall n, run (replicate n CallRead) s =
                Some (replicate n (Returned None (Some EOS)), s)) /\
   (forall acts os s2, run acts s = Some (os, s2) ->
      s2 = s /\ Forall (eq (Returned None (Some EOS))) os)).
Proof.
  intros Hp Hstep.
  destruct (step_EOS_from_pending _ _ _ Hp Hstep) as (-> & _ & _).
  split; [reflexivity|]. intros Hw. split.
  - induction n as [|n IH]; [reflexivity|].
    cbn [replicate run]. now rewrite Hstep, IH.
  - induction acts as [|a acts IH]; intros os s2; cbn [run].
    + intros [= <- <-]. split; [reflexivity | constructor].
    + destruct a.
      * rewrite Hstep.
        destruct (run acts s) as [[os1 s3]|] eqn:Hrun; [|discriminate].
        intros [= <- <-]. destruct (IH _ _ eq_refl) as [-> HF].
        split; [reflexivity|]. now constructor.
      * unfold step. rewrite Hw. discriminate.
Qed.

Example at_end_of_stream_reached :
  snd <$> run [CallRead; RunBackground] (start "u" [segment "1"; closed "2"]) =
    Some at_end_of_stream.
Proof. vm_compute. reflexivity. Qed.

Lemma C10_EOS_absorbing_without_waiting_goroutine_witness :
  at_end_of_stream = at_end_of_stream /\
  (waiting at_end_of_stream = O ->
   (forall n,
      run (replicate n CallRead) at_end_of_stream =
        Some (replicate n (Returned None (Some EOS)), at_end_of_stream)) /\
   (forall acts os s2,
      run acts at_end_of_stream = Some (os, s2) ->
      s2 = at_end_of_stream /\ Forall (eq (Returned None (Some EOS))) os)).
Proof.
  apply (C10_EOS_absorbing_without_waiting_goroutine
           at_end_of_stream closed_response at_end_of_stream).
  - reflexivity.
  - vm_compute. reflexivity.
Defined.

(** C10 (as stated) fails: two Reads run before the first look-ahead
    goroutine gets the mutex, so two goroutines wait.  The first one
    stores a closed connection and the third Read returns EOS from it;
    then the second goroutine fetches and stores an open connection, and
    the fourth Read returns that stream instead of EOS. *)
Lemma C10_read_after_EOS_returns_stream :
  exists os3 s3 p s5 conn,
    run [CallRead; CallRead; RunBackground]
      (start "u" [segment "1"; segment "2"; closed "3"; segment "4"]) = Some (os3, s3) /\
    pendingGet (sub s3) = Some p /\
    step CallRead s3 = Some (Returned None (Some EOS), s3) /\
    waiting s3 = 1%nat /\
    run [RunBackground; CallRead] s3 =
      Some ([Prefetched; Returned (Some conn) None], s5) /\
    length (sent (world s5)) = S (length (sent (world s3))).
Proof.
  do 5 eexists. split; [vm_compute; reflexivity|].
  split; [reflexivity|]. split; [vm_compute; reflexivity|].
  split; [reflexivity|]. split; [vm_compute; reflexivity|]. reflexivity.
Qed.

End TrickleFacts.

Module MediaFacts.
Import Media.

(** ** The end-of-stream reader *)

Lemma EOSReader_Read_spec (r : EOSReader) (p : list Byte.byte) :
  io_Read r p = (r, p, 0, Some EOF).
Proof. reflexivity. Qed.

Lemma EOSReader_reads (r : EOSReader) bufs :
  reads r bufs = (fun p => (p, 0, Some EOF)) <$> bufs.
Proof.
  induction bufs as [|p bufs IH]; [reflexivity|].
  cbn [reads]. rewrite EOSReader_Read_spec, IH. reflexivity.
Qed.

(** ** Counting threads *)

Section Tally.
Context {W : Type}.
Implicit Types (f g : @thread W -> nat) (l : list (@thread W)).

Lemma tally_cons f t l : tally f (t :: l) = (f t + tally f l)%nat.
Proof. reflexivity. Qed.

Lemma tally_insert f l : forall n t t',
  l !! n = Some t ->
  (tally f (<[n := t']> l) + f t = tally f l + f t')%nat.
Proof.
  induction l as [|x l IH]; intros n t t'; [discriminate|].
  destruct n as [|n]; cbn [lookup list_lookup].
  - intros [= ->]. change (<[O := t']> (t :: l)) with (t' :: l).
    rewrite !tally_cons. lia.
  - intros H. change (<[S n := t']> (x :: l)) with (x :: <[n := t']> l).
    rewrite !tally_cons. specialize (IH n t t' H). lia.
Qed.

Lemma tally_lookup_le f l : forall n t,
  l !! n = Some t -> (f t <= tally f l)%nat.
Proof.
  induction l as [|x l IH]; intros n t; [discriminate|].
  destruct n as [|n]; cbn [lookup list_lookup]; rewrite tally_cons.
  - intros [= ->]. lia.
  - intros H. specialize (IH n t H). lia.
Qed.

Lemma tally_le f g l :
  (forall t, (f t <= g t)%nat) -> (tally f l <= tally g l)%nat.
Proof.
  intros H. induction l as [|x l IH]; [reflexivity|].
  rewrite !tally_cons. specialize (H x). lia.
Qed.

Lemma tally_add f g l :
  tally (fun t => (f t + g t)%nat) l = (tally f l + tally g l)%nat.
Proof.
  induction l as [|x l IH]; [reflexivity|]. rewrite !tally_cons. lia.
Qed.

Lemma tally_ext f g l : (forall t, f t = g t) -> tally f l = tally g l.
Proof.
  intros H. induction l as [|x l IH]; [reflexivity|].
  rewrite !tally_cons, H. lia.
Qed.

Lemma tally_fresh f (calls : list (@call W)) :
  (forall o, f (mkThread o O) = O) ->
  tally f ((fun o => mkThread o O) <$> calls) = O.
Proof.
  intros H. induction calls as [|o calls IH]; [reflexivity|].
  rewrite fmap_cons, tally_cons, H, IH. reflexivity.
Qed.

Lemma in_store_le_in_exclusive (t : @thread W) :
  (in_store t <= in_exclusive t)%nat.
Proof.
  unfold in_store, in_exclusive.
  destruct (code (th_call t) !! th_pc t) as [[]|]; lia.
Qed.

(** With at most one thread in a write-locked region, a thread that is
    there is the only one that can be in the middle of a store. *)
Lemma only_writer_stores l n t :
  l !! n = Some t ->
  (tally in_exclusive l <= 1)%nat ->
  in_exclusive t = 1%nat ->
  tally in_store l = in_store t.
Proof.
  intros Hl Hle Ht.
  pose (g := fun t : @thread W => (in_exclusive t - in_store t)%nat).
  assert (Hsplit : tally in_exclusive l = (tally in_store l + tally g l)%nat).
  { rewrite <- tally_add. apply tally_ext. intros x. unfold g.
    pose proof (in_store_le_in_exclusive x). lia. }
  pose proof (tally_lookup_le g l n t Hl) as Hg.
  pose proof (tally_lookup_le in_store l n t Hl) as Hs.
  pose proof (in_store_le_in_exclusive t).
  unfold g in Hg at 1. lia.
Qed.

End Tally.

(** ** The lock invariant *)

Section Locking.
Context {W : Type} (go_discard : Reader -> W -> W).

Lemma init_invariant (w : W) calls : lock_invariant (init go_discard w calls).
Proof.
  unfold lock_invariant, init. cbn [mu pool torn saw_torn writer readers].
  rewrite !tally_fresh by (intros []; reflexivity).
  repeat split; reflexivity || discriminate.
Qed.

Lemma exec_pool i (c c1 : @Config W) : exec i c = Some c1 -> pool c1 = pool c.
Proof.
  destruct i; cbn;
    repeat match goal with |- context [if ?b then _ else _] => destruct b end;
    intros [= <-]; reflexivity.
Qed.

(** The regions a thread is in just before and just after each
    instruction of a method body: (read-locked, write-locked, storing). *)
Lemma regions_around (t : @thread W) i :
  code (th_call t) !! th_pc t = Some i ->
  (in_shared t, in_exclusive t, in_store t,
   (in_shared (advance t), in_exclusive (advance t), in_store (advance t))) =
  match i with
  | Lock => (0, 0, 0, (0, 1, 0))
  | StoreBegin => (0, 1, 0, (0, 1, 1))
  | StoreEnd _ => (0, 1, 1, (0, 1, 0))
  | Unlock => (0, 1, 0, (0, 0, 0))
  | RLock => (0, 0, 0, (1, 0, 0))
  | Invoke _ => (1, 0, 0, (1, 0, 0))
  | RUnlock => (1, 0, 0, (0, 0, 0))
  end%nat.
Proof.
  destruct t as [o pc]. unfold in_shared, in_exclusive, in_store, advance.
  cbn [th_call th_pc].
  destruct o; destruct pc as [|[|[|[|pc]]]]; cbn; intros [= <-]; reflexivity.
Qed.

Lemma step_invariant n (c c' : @Config W) :
  lock_invariant c -> step n c = Some c' -> lock_invariant c'.
Proof.
  intros (Hr & Hw & Ht & Hx & Hsaw). unfold step.
  destruct (pool c !! n) as [t|] eqn:Hl; [|discriminate].
  destruct (code (th_call t) !! th_pc t) as [i|] eqn:Hi; [|discriminate].
  destruct (exec i c) as [c1|] eqn:He; [|discriminate].
  intros [= <-]. unfold lock_invariant. cbn [mu pool torn saw_torn].
  rewrite (exec_pool _ _ _ He).
  pose proof (tally_insert in_shared _ _ _ (advance t) Hl) as Es.
  pose proof (tally_insert in_exclusive _ _ _ (advance t) Hl) as Ee.
  pose proof (tally_insert in_store _ _ _ (advance t) Hl) as Et.
  assert (Hone : (tally in_exclusive (pool c) <= 1)%nat)
    by (rewrite <- Hw; destruct (writer (mu c)); cbn; lia).
  pose proof (only_writer_stores _ _ _ Hl Hone) as Hows.
  pose proof (tally_lookup_le in_shared _ _ _ Hl) as Ls.
  pose proof (tally_le in_store in_exclusive (pool c) in_store_le_in_exclusive) as Lt.
  pose proof (regions_around t i Hi) as Hreg.
  destruct (writer (mu c)) eqn:Ew, (torn c) eqn:Et0; cbn [Nat.b2n] in Hw, Ht;
    destruct i; injection Hreg as Hr1 Hr2 Hr3 Hr4 Hr5 Hr6;
    rewrite ?Hr1, ?Hr2, ?Hr3, ?Hr4, ?Hr5, ?Hr6 in *;
    cbn in He; rewrite ?Ew, ?Et0 in He; cbn in He;
    try discriminate.
  all: try (destruct (readers (mu c)) eqn:Er; cbn in He; try discriminate).
  all: injection He as <-; cbn [mu pool torn saw_torn writer readers Nat.b2n Nat.pred].
  all: repeat match goal with
         | H : ?a = ?a -> _ |- _ => specialize (H eq_refl)
         | H : false = true -> _ |- _ => clear H
         | H : O = 1%nat -> _ |- _ => clear H
         end.
  all: rewrite ?Ew; cbn [Nat.b2n].
  all: try (exfalso; lia).
  all: repeat split; intros; try discriminate; try assumption; lia.
Qed.

Lemma run_invariant sched : forall c c' : @Config W,
  lock_invariant c -> run sched c = Some c' -> lock_invariant c'.
Proof.
  induction sched as [|n sched IH]; intros c c' Hinv; cbn [run].
  - now intros [= <-].
  - destruct (step n c) as [c1|] eqn:Hstep; [|discriminate].
    apply IH. eapply step_invariant; eassumption.
Qed.


(** C6 (as the code has it): Dispatch (the Read method) and Close take
    the lock in shared mode and only SwitchReader takes it exclusively.
    SwitchReader is the only writer of the handler, so in every
    configuration reachable by any interleaving of any calls, no call of
    the handler has read the field while a store to it was under way, a
    held write lock excludes all readers, and a store is only ever under
    way inside the write lock. *)
Theorem C6_no_dispatch_sees_a_half_stored_handler
  (w : W) (calls : list call) (sched : list nat) (c : Config) :
  run sched (init go_discard w calls) = Some c ->
  ((forall rd, @acquires W (CallRead rd) = Some Shared) /\
   @acquires W CallClose = Some Shared /\
   (forall h, @acquires W (CallSwitchReader h) = Some Exclusive)) /\
  saw_torn c = false /\
  (writer (mu c) = true -> readers (mu c) = O) /\
  (torn c = true -> writer (mu c) = true).
Proof.
  intros Hrun.
  split; [repeat split|].
  destruct (run_invariant _ _ _ (init_invariant w calls) Hrun)
    as (Hr & Hw & Ht & Hx & Hsaw).
  split; [exact Hsaw|]. split; [exact Hx|].
  intros Htorn. rewrite Htorn in Ht. cbn in Ht.
  pose proof (tally_le in_store in_exclusive (pool c) in_store_le_in_exclusive).
  destruct (writer (mu c)); [reflexivity|]. cbn in Hw. lia.
Qed.

(** Close, run as a thread with nobody in its way, does what the
    method does when run on its own. *)
Lemma Close_thread_runs (c : @Config W) n :
  pool c !! n = Some (mkThread CallClose O) ->
  writer (mu c) = false ->
  torn c = false ->
  exists c',
    run [n; n; n] c = Some c' /\
    sr c' = fst (Close (sr c) (heap c)) /\
    heap c' = snd (Close (sr c) (heap c)) /\
    mu c' = mu c.
Proof.
  intros Hl Hw Ht. destruct c as [s0 tn [wr rds] h pl st].
  cbn [pool mu torn writer] in Hl, Hw, Ht. subst wr tn.
  assert (Hlen : (n < length pl)%nat) by (eapply lookup_lt_Some; eassumption).
  unfold run, step. cbn [pool]. rewrite Hl. cbn.
  rewrite list_lookup_insert_eq by assumption. cbn.
  rewrite list_lookup_insert_eq by (now rewrite length_insert). cbn.
  eexists. split; [reflexivity|]. cbn. auto.
Qed.

(** In any reachable configuration, a Close that holds the read lock
    and is about to call finds the field whole, calls the handler stored
    right then with the end-of-stream reader, and leaves the field alone. *)
Lemma Close_calls_the_stored_handler (w : W) calls sched (c : @Config W) n :
  run sched (init go_discard w calls) = Some c ->
  pool c !! n = Some (mkThread CallClose 1) ->
  exists c',
    step n c = Some c' /\
    sr c' = sr c /\
    heap c' = reader (sr c) eos_stream (heap c) /\
    saw_torn c' = false.
Proof.
  intros Hrun Hl.
  destruct (run_invariant _ _ _ (init_invariant w calls) Hrun)
    as (Hr & Hw & Ht & Hx & Hsaw).
  pose proof (tally_lookup_le in_shared _ _ _ Hl) as Ls.
  pose proof (tally_le in_store in_exclusive (pool c) in_store_le_in_exclusive) as Lt.
  change (in_shared (mkThread CallClose 1)) with 1%nat in Ls.
  assert (Htorn : torn c = false).
  { destruct (torn c); [|reflexivity]. cbn in Ht.
    destruct (writer (mu c)); cbn in Hw; [specialize (Hx eq_refl)|]; lia. }
  unfold step. rewrite Hl. cbn. rewrite Htorn.
  eexists. split; [reflexivity|]. cbn. auto.
Qed.

End Locking.

Lemma eos_stream_Read (p : list Byte.byte) :
  MediaRuns.Reader_Read eos_stream p = (eos_stream, p, 0, Some EOF).
Proof. reflexivity. Qed.

Lemma eos_stream_reads bufs :
  MediaRuns.stream_reads eos_stream bufs = (fun p => (p, 0, Some EOF)) <$> bufs.
Proof.
  induction bufs as [|p bufs IH]; [reflexivity|].
  cbn [MediaRuns.stream_reads]. rewrite eos_stream_Read, IH. reflexivity.
Qed.

(** C7: Close calls the handler stored at that moment, passing it the
    end-of-stream stream, and leaves the stored handler as it was.
    Every Read made through that stream (the interface value Close
    passes, with the method table it carries), first or later and
    whatever the buffer, returns 0 bytes and io.EOF and writes nothing
    into the buffer; so a handler that reads the stream it is given
    gets from Close nothing but (0, io.EOF), however often it reads. *)
Theorem C7_Close_feeds_EOS_to_the_active_handler
  {W : Type} (sr : @SwitchableSegmentReader W) (w : W) :
  Close sr w = (sr, reader sr eos_stream w) /\
  (forall p : list Byte.byte,
     MediaRuns.Reader_Read eos_stream p = (eos_stream, p, 0, Some EOF)) /\
  (forall bufs : list (list Byte.byte),
     MediaRuns.stream_reads eos_stream bufs = (fun p => (p, 0, Some EOF)) <$> bufs) /\
  (forall bufs log,
     Close {| reader := MediaRuns.reading_handler bufs |} log =
       ({| reader := MediaRuns.reading_handler bufs |},
        log ++ ((fun p => (p, 0, Some EOF)) <$> bufs))).
Proof.
  split; [reflexivity|]. split; [apply eos_stream_Read|].
  split; [apply eos_stream_reads|].
  intros bufs log. unfold Close. cbn [reader].
  unfold MediaRuns.reading_handler. now rewrite eos_stream_reads.
Qed.

Lemma C6_no_dispatch_sees_a_half_stored_handler_witness :
  ((forall rd, @acquires nat (CallRead rd) = Some Shared) /\
   @acquires nat CallClose = Some Shared /\
   (forall h, @acquires nat (CallSwitchReader h) = Some Exclusive)) /\
  saw_torn sample_end = false /\
  (writer (mu sample_end) = true -> readers (mu sample_end) = O) /\
  (torn sample_end = true -> writer (mu sample_end) = true).
Proof.
  apply (C6_no_dispatch_sees_a_half_stored_handler
           ignore_stream O sample_calls sample_schedule sample_end).
  reflexivity.
Defined.

(** C6 (as stated) fails for Close: it takes the lock with RLock, so a
    Close and a Dispatch can be inside their locked regions together. *)
Lemma C6_Close_takes_the_lock_shared :
  @acquires nat CallClose <> Some Exclusive /\
  exists c,
    run [1; 2]%nat (init ignore_stream O sample_calls) = Some c /\
    pool c !! 1%nat = Some (mkThread (CallRead eos_stream) 1) /\
    pool c !! 2%nat = Some (mkThread CallClose 1) /\
    mu c = {| writer := false; readers := 2 |}.
Proof.
  split; [discriminate|].
  eexists. split; [reflexivity|]. repeat split.
Qed.

End MediaFacts.

(** * Further properties of the subscriber *)

Module TrickleMore.
Import Trickle TrickleRuns TrickleFacts.

#[local] Arguments GetSeq : simpl never.
#[local] Arguments IsEOS : simpl never.
#[local] Arguments GoInt.add : simpl never.

(** ** The ways through Read *)

Lemma current_segment_conn c w conn c1 w1 :
  current_segment c w = Some (inl (conn, c1, w1)) ->
  (pendingGet c = Some conn /\ c1 = c /\ w1 = w) \/
  (pendingGet c = None /\ preconnect c w = Some (inl conn, w1) /\ c1 = set_count 0 c).
Proof.
  unfold current_segment. destruct (pendingGet c) as [p|] eqn:Hp.
  - intros [= <- <- <-]. left. auto.
  - destruct (preconnect c w) as [[[p|e] w2]|]; [| |discriminate].
    + intros [= <- <- <-]. right. unfold set_count. rewrite Hp. auto.
    + discriminate.
Qed.

Lemma current_segment_err c w err c1 w1 :
  current_segment c w = Some (inr (err, c1, w1)) ->
  pendingGet c = None /\ preconnect c w = Some (inr err, w1) /\
  c1 = set_count (GoInt.add (preconnectErrorCount c) 1) c.
Proof.
  unfold current_segment. destruct (pendingGet c) as [p|] eqn:Hp; [discriminate|].
  destruct (preconnect c w) as [[[p|e] w2]|]; [| |discriminate].
  - discriminate.
  - intros [= <- <- <-]. unfold set_count. rewrite Hp. auto.
Qed.

Lemma set_idx_same c : set_idx (idx c) c = c.
Proof. now destruct c. Qed.

Lemma Read_inv c w out : Read c w = Some out -> Read_path c w out.
Proof.
  destruct (Z.ltb_spec 5 (preconnectErrorCount c)) as [Hgt|Hle].
  - rewrite Read_hit_max by assumption. intros [= <-]. now constructor.
  - rewrite Read_below_max by assumption.
    destruct (current_segment c w) as [[[[conn c1] w1]|[[err c1] w1]]|] eqn:Hcur;
      [| |discriminate].
    + destruct (IsEOS conn) eqn:Heos; intros [= <-].
      * eapply path_closed; eassumption.
      * replace (if negb (GetSeq (Some conn) =? -1) then _ else c1)
          with (set_idx (next_idx conn (idx c1)) c1).
        { now apply path_stream. }
        unfold next_idx, set_idx.
        destruct (negb _); [reflexivity|]. now destruct c1.
    + intros [= <-]. eapply path_failed; eassumption.
Qed.

(** ** preconnect *)

Lemma connect_NoAnswer c w :
  connect c NoAnswer w = (Cancelled, send (request_of c) w).
Proof. reflexivity. Qed.

Lemma connect_not_cancelled c a w :
  a <> NoAnswer -> fst (connect c a w) <> Cancelled.
Proof.
  destruct a as [|cause|cause|r]; cbn; try discriminate; [congruence|].
  destruct (negb (reply_status r =? StatusOK)); discriminate.
Qed.

Lemma preconnect_loop_blocks_iff c s : forall w,
  preconnect_loop c s w = None <-> Forall (eq NoAnswer) s.
Proof.
  induction s as [|a s IH]; intros w; cbn [preconnect_loop].
  - split; [constructor | reflexivity].
  - destruct a as [|cause|cause|r].
    + rewrite connect_NoAnswer, IH. split.
      * now constructor.
      * now inversion 1.
    + cbn. split; [discriminate | inversion 1; discriminate].
    + cbn. split; [discriminate | inversion 1; discriminate].
    + cbn. destruct (negb (reply_status r =? StatusOK));
        (split; [discriminate | inversion 1; discriminate]).
Qed.

(** The result [connect] reports for an attempt that is not cancelled. *)
Lemma connect_answer c a w :
  a <> NoAnswer ->
  exists r w1,
    connect c a w = (r, w1) /\ script w1 = script w /\
    sent w1 = sent w ++ match a with BadRequest _ => [] | _ => [request_of c] end /\
    match failure_of a with
    | Some e => r = Failed e /\ next_addr w1 = next_addr w
    | None =>
        exists rp,
          a = Answer rp /\
          r = Connected (mkResponse (next_addr w) StatusOK (reply_header rp) (reply_body rp)) /\
          next_addr w1 = S (next_addr w)
    end.
Proof.
  destruct a as [|cause|cause|rp]; [congruence| | |]; intros _; cbn.
  - do 2 eexists. split; [reflexivity|]. rewrite app_nil_r. auto.
  - do 2 eexists. split; [reflexivity|]. auto.
  - destruct (Z.eqb_spec (reply_status rp) StatusOK) as [Heq|Hne]; cbn.
    + do 2 eexists. split; [reflexivity|]. cbn. repeat split.
      exists rp. rewrite Heq. auto.
    + do 2 eexists. split; [reflexivity|]. cbn. auto.
Qed.

Lemma preconnect_loop_retries c n : forall w a rest,
  a <> NoAnswer ->
  exists r w1,
    connect c a (mkWorld rest (sent w ++ replicate n (request_of c)) (next_addr w))
      = (r, w1) /\
    preconnect_loop c (replicate n NoAnswer ++ a :: rest) w =
      match r with
      | Cancelled => None
      | Failed e => Some (inr e, w1)
      | Connected resp => Some (inl resp, w1)
      end.
Proof.
  induction n as [|n IH]; intros w a rest Ha.
  - cbn [replicate app preconnect_loop]. rewrite app_nil_r.
    destruct (connect c a (with_script rest w)) as [r w1] eqn:Hc.
    exists r, w1. split; [exact Hc|].
    pose proof (connect_not_cancelled c a (with_script rest w) Ha) as Hnc.
    rewrite Hc in Hnc. cbn in Hnc. destruct r; [congruence|reflexivity|reflexivity].
  - cbn [replicate app preconnect_loop]. rewrite connect_NoAnswer.
    destruct (IH (send (request_of c)
                    (with_script (replicate n NoAnswer ++ a :: rest) w)) a rest Ha)
      as (r & w1 & Hc & Hl).
    exists r, w1. split; [|exact Hl].
    cbn [send with_script sent next_addr] in Hc.
    rewrite <- app_assoc in Hc. exact Hc.
Qed.

(** X2: the refresh loop of preconnect: after [n] attempts that time
    out, the first attempt that is answered decides the result, an error
    or a connection with status 200 carrying the answer's headers and
    body; every attempt but a failed request construction has sent one
    GET, all to the same URL and index. *)
Theorem preconnect_retries_until_answered c w n a rest :
  a <> NoAnswer ->
  script w = replicate n NoAnswer ++ a :: rest ->
  exists r w1,
    preconnect c w = Some (r, w1) /\
    script w1 = rest /\
    sent w1 =
      sent w ++ replicate n (request_of c) ++
      match a with BadRequest _ => [] | _ => [request_of c] end /\
    match failure_of a with
    | Some e => r = inr e
    | None =>
        exists rp,
          a = Answer rp /\
          r = inl (mkResponse (next_addr w) StatusOK (reply_header rp) (reply_body rp))
    end.
Proof.
  intros Ha Hs. unfold preconnect. rewrite Hs.
  destruct (preconnect_loop_retries c n w a rest Ha) as (r & w1 & Hc & ->).
  destruct (connect_answer c a
              (mkWorld rest (sent w ++ replicate n (request_of c)) (next_addr w)) Ha)
    as (r' & w1' & Hc' & Hscr & Hsent & Hres).
  rewrite Hc in Hc'. injection Hc' as <- <-.
  cbn [script sent next_addr] in Hscr, Hsent, Hres.
  rewrite <- app_assoc in Hsent.
  destruct (failure_of a) as [e|].
  - destruct Hres as [-> _]. eauto 10.
  - destruct Hres as (rp & -> & -> & _). eauto 10.
Qed.

Lemma preconnect_retries_until_answered_witness :
  exists r w1,
    preconnect (NewTrickleSubscriber "u")
      (mkWorld [NoAnswer; NoAnswer; segment "7"; segment "8"] [] O) = Some (r, w1) /\
    script w1 = [segment "8"] /\
    sent w1 =
      [] ++ replicate 2 (request_of (NewTrickleSubscriber "u")) ++
      [request_of (NewTrickleSubscriber "u")] /\
    exists rp,
      segment "7" = Answer rp /\
      r = inl (mkResponse O StatusOK (reply_header rp) (reply_body rp)).
Proof.
  apply (preconnect_retries_until_answered (NewTrickleSubscriber "u")
           (mkWorld [NoAnswer; NoAnswer; segment "7"; segment "8"] [] O)
           2 (segment "7") [segment "8"]).
  - discriminate.
  - reflexivity.
Defined.

(** ** What Read returns *)

Lemma preconnect_loop_error c s : forall w e w1,
  preconnect_loop c s w = Some (inr e, w1) ->
  exists a, In a s /\ failure_of a = Some e.
Proof.
  induction s as [|a s IH]; intros w e w1; cbn [preconnect_loop]; [discriminate|].
  destruct a as [|cause|cause|r].
  - rewrite connect_NoAnswer. intros H. apply IH in H as (a & Hin & Ha).
    exists a. split; [now right | exact Ha].
  - cbn. intros [= <- <-]. eexists. split; [now left | reflexivity].
  - cbn. intros [= <- <-]. eexists. split; [now left | reflexivity].
  - cbn. destruct (negb (reply_status r =? StatusOK)) eqn:Hst.
    + intros [= <- <-]. eexists. split; [now left|]. cbn. now rewrite Hst.
    + discriminate.
Qed.

Lemma preconnect_error_is_connect_error c w e w1 :
  preconnect c w = Some (inr e, w1) -> e <> HitMaxPreconnects /\ e <> EOS.
Proof.
  intros H. apply preconnect_loop_error in H as (a & _ & Ha).
  eapply failure_is_not_exhaustion; eassumption.
Qed.

(** X3: Read returns either a connection and no error, having started
    the look-ahead goroutine, or an error and no connection, having
    started none: never both, never neither. *)
Theorem Read_returns_stream_or_error c w out :
  Read c w = Some out ->
  (exists conn, ret_conn out = Some conn /\ ret_err out = None /\ started out = true) \/
  (exists err, ret_conn out = None /\ ret_err out = Some err /\ started out = false).
Proof.
  intros H. apply Read_inv in H. destruct H; cbn; eauto 10.
Qed.

Lemma Read_returns_stream_or_error_witness :
  (exists conn,
     ret_conn (mkReadOut None (Some (GetError "refused"))
                 (mkSubscriber "u" None (-1) 1)
                 (mkWorld [] [mkRequest "u" (-1)] O) false) = Some conn /\
     ret_err (mkReadOut None (Some (GetError "refused"))
                (mkSubscriber "u" None (-1) 1)
                (mkWorld [] [mkRequest "u" (-1)] O) false) = None /\
     started (mkReadOut None (Some (GetError "refused"))
                (mkSubscriber "u" None (-1) 1)
                (mkWorld [] [mkRequest "u" (-1)] O) false) = true) \/
  (exists err,
     ret_conn (mkReadOut None (Some (GetError "refused"))
                 (mkSubscriber "u" None (-1) 1)
                 (mkWorld [] [mkRequest "u" (-1)] O) false) = None /\
     ret_err (mkReadOut None (Some (GetError "refused"))
                (mkSubscriber "u" None (-1) 1)
                (mkWorld [] [mkRequest "u" (-1)] O) false) = Some err /\
     started (mkReadOut None (Some (GetError "refused"))
                (mkSubscriber "u" None (-1) 1)
                (mkWorld [] [mkRequest "u" (-1)] O) false) = false).
Proof.
  apply (Read_returns_stream_or_error (NewTrickleSubscriber "u")
           (mkWorld [DoFails "refused"] [] O)).
  reflexivity.
Defined.

(** X4: which error Read returns.  "Hit max preconnects" is returned
    exactly when the count is above 5 on entry; EOS exactly when the
    count is at most 5 and the connection Read works on is closed; any
    other error is the error of the synchronous preconnect. *)
Theorem Read_error_kinds c w out :
  Read c w = Some out ->
  (ret_err out = Some HitMaxPreconnects <-> 5 < preconnectErrorCount c) /\
  (ret_err out = Some EOS <->
     preconnectErrorCount c <= 5 /\
     exists conn c1 w1,
       current_segment c w = Some (inl (conn, c1, w1)) /\ IsEOS conn = true) /\
  (forall err, ret_err out = Some err -> err <> HitMaxPreconnects -> err <> EOS ->
     pendingGet c = None /\ exists w1, preconnect c w = Some (inr err, w1)).
Proof.
  intros H. apply Read_inv in H.
  destruct H as [Hgt|err c1 w1 Hle Hcur|conn c1 w1 Hle Hcur Heos|conn c1 w1 Hle Hcur Heos];
    cbn [ret_err].
  - split; [tauto|]. split; [|congruence].
    split; [discriminate | lia].
  - apply current_segment_err in Hcur as Herr.
    destruct Herr as (Hp & Hpre & _).
    destruct (preconnect_error_is_connect_error _ _ _ _ Hpre) as [Hn1 Hn2].
    split; [|split].
    + split; [congruence | lia].
    + split; [congruence|]. intros (_ & conn & c2 & w2 & Hc2 & _). congruence.
    + intros e [= <-] _ _. eauto.
  - split; [|split].
    + split; [discriminate | lia].
    + split; [eauto 10 | reflexivity].
    + congruence.
  - split; [|split].
    + split; [discriminate | lia].
    + split; [discriminate|]. intros (_ & conn2 & c2 & w2 & Hc2 & Heos2). congruence.
    + discriminate.
Qed.

Lemma Read_error_kinds_witness :
  (ret_err (mkReadOut None (Some EOS) (NewTrickleSubscriber "u")
              (mkWorld [] [mkRequest "u" (-1)] 1%nat) false) = Some HitMaxPreconnects <->
     5 < preconnectErrorCount (NewTrickleSubscriber "u")) /\
  (ret_err (mkReadOut None (Some EOS) (NewTrickleSubscriber "u")
              (mkWorld [] [mkRequest "u" (-1)] 1%nat) false) = Some EOS <->
     preconnectErrorCount (NewTrickleSubscriber "u") <= 5 /\
     exists conn c1 w1,
       current_segment (NewTrickleSubscriber "u") (mkWorld [closed "4"] [] O) =
         Some (inl (conn, c1, w1)) /\ IsEOS conn = true) /\
  (forall err,
     ret_err (mkReadOut None (Some EOS) (NewTrickleSubscriber "u")
                (mkWorld [] [mkRequest "u" (-1)] 1%nat) false) = Some err ->
     err <> HitMaxPreconnects -> err <> EOS ->
     pendingGet (NewTrickleSubscriber "u") = None /\
     exists w1,
       preconnect (NewTrickleSubscriber "u") (mkWorld [closed "4"] [] O) =
         Some (inr err, w1)).
Proof.
  apply (Read_error_kinds (NewTrickleSubscriber "u") (mkWorld [closed "4"] [] O)).
  vm_compute. reflexivity.
Defined.

(** ** The pending connection *)

(** X5: with a connection pending, the body of Read (what runs once the
    mutex is held) needs nothing from the network: it runs through to
    its return without a request, whatever the network would answer, and
    leaves the pending connection, the URL and the error count as they
    are. *)
Theorem Read_with_pending_makes_no_request c w p :
  pendingGet c = Some p ->
  exists out,
    Read c w = Some out /\
    world_after out = w /\
    pendingGet (sub_after out) = Some p /\
    url (sub_after out) = url c /\
    preconnectErrorCount (sub_after out) = preconnectErrorCount c.
Proof.
  intros Hp. unfold Read, current_segment. rewrite Hp.
  destruct (5 <? preconnectErrorCount c); [eauto 10|].
  destruct (IsEOS p); [eauto 10|].
  eexists. split; [reflexivity|]. cbn.
  destruct (negb _); cbn; auto.
Qed.

Lemma Read_with_pending_makes_no_request_witness :
  exists out,
    Read (sub at_end_of_stream) (mkWorld [segment "9"] [] 5%nat) = Some out /\
    world_after out = mkWorld [segment "9"] [] 5%nat /\
    pendingGet (sub_after out) = Some closed_response /\
    url (sub_after out) = url (sub at_end_of_stream) /\
    preconnectErrorCount (sub_after out) = preconnectErrorCount (sub at_end_of_stream).
Proof.
  apply (Read_with_pending_makes_no_request (sub at_end_of_stream)
           (mkWorld [segment "9"] [] 5%nat) closed_response).
  reflexivity.
Defined.

(** X6: a look-ahead that succeeds hands its connection to the next
    Read: the goroutine stores it, resets the error count and moves the
    index; the Read that follows returns that very connection (or EOS if
    it is closed) without any request, and leaves the index where the
    goroutine put it. *)
Theorem lookahead_hands_over c w conn w1 :
  preconnect c w = Some (inl conn, w1) ->
  exists c',
    background c w = Some (c', w1) /\
    pendingGet c' = Some conn /\
    preconnectErrorCount c' = 0 /\
    idx c' = next_idx conn (idx c) /\
    forall w2,
      exists out,
        Read c' w2 = Some out /\
        world_after out = w2 /\
        idx (sub_after out) = idx c' /\
        (IsEOS conn = false -> ret_conn out = Some conn /\ ret_err out = None) /\
        (IsEOS conn = true -> ret_conn out = None /\ ret_err out = Some EOS).
Proof.
  intros Hpre. unfold background. rewrite Hpre.
  eexists. split; [reflexivity|]. cbn [pendingGet preconnectErrorCount idx].
  do 3 (split; [reflexivity|]).
  intros w2. unfold Read, current_segment. cbn [pendingGet preconnectErrorCount].
  change (5 <? 0) with false. cbv iota.
  destruct (IsEOS conn).
  - eexists. split; [reflexivity|]. cbn. repeat split; congruence.
  - eexists. split; [reflexivity|]. cbn [world_after sub_after ret_conn ret_err].
    split; [reflexivity|]. split; [|split; intros; [auto | discriminate]].
    unfold next_idx. destruct (negb (GetSeq (Some conn) =? -1)); reflexivity.
Qed.

Lemma lookahead_hands_over_witness :
  exists c',
    background (mkSubscriber "u" None 8 0) (mkWorld [segment "8"] [] 1%nat) =
      Some (c', mkWorld [] [mkRequest "u" 8] 2%nat) /\
    pendingGet c' = Some (mkResponse 1 200 {[ "Lp-Trickle-Seq" := ["8"] ]} "segment") /\
    preconnectErrorCount c' = 0 /\
    idx c' = next_idx (mkResponse 1 200 {[ "Lp-Trickle-Seq" := ["8"] ]} "segment") 8 /\
    forall w2,
      exists out,
        Read c' w2 = Some out /\
        world_after out = w2 /\
        idx (sub_after out) = idx c' /\
        (IsEOS (mkResponse 1 200 {[ "Lp-Trickle-Seq" := ["8"] ]} "segment") = false ->
         ret_conn out = Some (mkResponse 1 200 {[ "Lp-Trickle-Seq" := ["8"] ]} "segment") /\
         ret_err out = None) /\
        (IsEOS (mkResponse 1 200 {[ "Lp-Trickle-Seq" := ["8"] ]} "segment") = true ->
         ret_conn out = None /\ ret_err out = Some EOS).
Proof.
  apply (lookahead_hands_over (mkSubscriber "u" None 8 0)
           (mkWorld [segment "8"] [] 1%nat)).
  reflexivity.
Defined.

(** ** Headers *)

(** X19: a response closes the stream exactly when it has a
    Lp-Trickle-Closed header whose first value is not empty; what the
    value says is not looked at. *)
Theorem IsEOS_iff_first_value_nonempty resp :
  IsEOS resp = true <->
  exists v vs,
    Header resp !! "Lp-Trickle-Closed" = Some (v :: vs) /\ v <> EmptyString.
Proof.
  rewrite IsEOS_closed_header. unfold Header_Get.
  destruct (Header resp !! "Lp-Trickle-Closed") as [[|v vs]|]; split.
  - congruence.
  - intros (v & vs & [=] & _).
  - eauto.
  - now intros (v' & vs' & [= <- <-] & Hne).
  - congruence.
  - intros (v & vs & [=] & _).
Qed.

(** X20: where a Read that hands out a connection leaves the index: one
    past the sequence number of the connection; unchanged when that
    number is -1; and at -97 when the header is missing or is not a
    number in the range of int. *)
Theorem index_after_Read c w out conn :
  Read c w = Some out ->
  ret_conn out = Some conn ->
  match Atoi (Header_Get (Header conn) "Lp-Trickle-Seq") with
  | Some seq =>
      if seq =? -1 then
        idx (sub_after out) = idx c
      else
        idx (sub_after out) = GoInt.add seq 1 /\
        (seq < GoInt.max_int -> idx (sub_after out) = seq + 1)
  | None => idx (sub_after out) = -97
  end.
Proof.
  intros HR Hc. apply Read_inv in HR.
  destruct HR as [Hgt|e c1 w1 Hle Hcur|cn c1 w1 Hle Hcur Heos|cn c1 w1 Hle Hcur Heos];
    cbn [ret_conn] in Hc; try discriminate.
  injection Hc as ->. cbn [sub_after]. unfold set_idx, next_idx. cbn [idx].
  assert (Hidx : idx c1 = idx c).
  { apply current_segment_conn in Hcur as [(_ & -> & _)|(_ & _ & ->)]; reflexivity. }
  destruct (Atoi (Header_Get (Header conn) "Lp-Trickle-Seq")) as [seq|] eqn:Hseq.
  - rewrite (GetSeq_numbered _ _ Hseq).
    destruct (seq =? -1) eqn:Hm; cbn [negb]; [exact Hidx|].
    split; [reflexivity|]. intros Hlt.
    apply Atoi_in_range in Hseq.
    apply GoIntFacts.add_small. unfold GoInt.min_int, GoInt.max_int in *. lia.
  - rewrite (GetSeq_unparsable _ Hseq). reflexivity.
Qed.

Lemma index_after_Read_witness :
  match Atoi (Header_Get
                (Header (mkResponse O 200 {[ "Lp-Trickle-Seq" := ["-1"] ]} "segment"))
                "Lp-Trickle-Seq") with
  | Some seq =>
      if seq =? -1 then
        idx (sub_after
               (mkReadOut
                  (Some (mkResponse O 200 {[ "Lp-Trickle-Seq" := ["-1"] ]} "segment")) None
                  (mkSubscriber "u" None 4 0) (mkWorld [] [mkRequest "u" 4] 1%nat) true)) =
        idx (mkSubscriber "u" None 4 3)
      else
        idx (sub_after
               (mkReadOut
                  (Some (mkResponse O 200 {[ "Lp-Trickle-Seq" := ["-1"] ]} "segment")) None
                  (mkSubscriber "u" None 4 0) (mkWorld [] [mkRequest "u" 4] 1%nat) true)) =
          GoInt.add seq 1 /\
        (seq < GoInt.max_int ->
         idx (sub_after
                (mkReadOut
                   (Some (mkResponse O 200 {[ "Lp-Trickle-Seq" := ["-1"] ]} "segment")) None
                   (mkSubscriber "u" None 4 0) (mkWorld [] [mkRequest "u" 4] 1%nat) true)) =
           seq + 1)
  | None =>
      idx (sub_after
             (mkReadOut
                (Some (mkResponse O 200 {[ "Lp-Trickle-Seq" := ["-1"] ]} "segment")) None
                (mkSubscriber "u" None 4 0) (mkWorld [] [mkRequest "u" 4] 1%nat) true)) = -97
  end.
Proof.
  apply (index_after_Read (mkSubscriber "u" None 4 3) (mkWorld [segment "-1"] [] O)
           (mkReadOut (Some (mkResponse O 200 {[ "Lp-Trickle-Seq" := ["-1"] ]} "segment")) None
              (mkSubscriber "u" None 4 0) (mkWorld [] [mkRequest "u" 4] 1%nat) true)
           (mkResponse O 200 {[ "Lp-Trickle-Seq" := ["-1"] ]} "segment")).
  - vm_compute. reflexivity.
  - reflexivity.
Defined.

(** ** Requests over a whole run *)

Lemma preconnect_requests c w r w1 :
  preconnect c w = Some (r, w1) ->
  exists more, sent w1 = sent w ++ more /\ Forall (eq (request_of c)) more.
Proof.
  unfold preconnect. intros H.
  apply preconnect_loop_sent in H as (more & Hs & HF & _). eauto.
Qed.

Lemma no_requests (w : World) (rq : Request) :
  exists more, sent w = sent w ++ more /\ Forall (eq rq) more.
Proof. exists []. rewrite app_nil_r. split; [reflexivity | constructor]. Qed.

(** Whatever a step requests, it requests from the URL and index the
    subscriber holds when the step begins. *)
Lemma step_requests a s o s' :
  step a s = Some (o, s') ->
  url (sub s') = url (sub s) /\
  exists more,
    sent (world s') = sent (world s) ++ more /\
    Forall (eq (request_of (sub s))) more.
Proof.
  destruct s as [c w k]. destruct a; cbn [step sub world waiting].
  - destruct (Read c w) as [out|] eqn:HR; [|discriminate].
    intros [= <- <-]. cbn [sub world].
    apply Read_inv in HR.
    destruct HR as [Hgt|err c1 w1 Hle Hcur|conn c1 w1 Hle Hcur Heos|conn c1 w1 Hle Hcur Heos];
      cbn [sub_after world_after].
    + split; [reflexivity | apply no_requests].
    + apply current_segment_err in Hcur as (_ & Hpre & ->).
      split; [reflexivity | eapply preconnect_requests; eassumption].
    + apply current_segment_conn in Hcur as [(_ & -> & ->)|(_ & Hpre & ->)].
      * split; [reflexivity | apply no_requests].
      * split; [reflexivity | eapply preconnect_requests; eassumption].
    + apply current_segment_conn in Hcur as [(_ & -> & ->)|(_ & Hpre & ->)].
      * split; [reflexivity | apply no_requests].
      * split; [reflexivity | eapply preconnect_requests; eassumption].
  - destruct k as [|k]; [discriminate|]. unfold background.
    destruct (preconnect c w) as [[[p|e] w1]|] eqn:Hpre; [| |discriminate];
      intros [= <- <-]; cbn [sub world];
      (split; [reflexivity | eapply preconnect_requests; eassumption]).
Qed.

(** X7: a subscriber only ever talks to the URL it was built with: over
    any run of Reads and goroutines the URL field does not change and
    every request made carries it. *)
Theorem requests_go_to_the_subscribers_url acts : forall s os s',
  run acts s = Some (os, s') ->
  url (sub s') = url (sub s) /\
  exists more,
    sent (world s') = sent (world s) ++ more /\
    Forall (fun rq => req_base rq = url (sub s)) more.
Proof.
  induction acts as [|a acts IH]; intros s os s'; cbn [run].
  - intros [= <- <-]. split; [reflexivity|]. exists []. rewrite app_nil_r.
    split; [reflexivity | constructor].
  - destruct (step a s) as [[o s1]|] eqn:Hstep; [|discriminate].
    destruct (run acts s1) as [[os1 s2]|] eqn:Hrun; [|discriminate].
    intros [= <- <-].
    apply step_requests in Hstep as (Hu1 & m1 & Hs1 & HF1).
    apply IH in Hrun as (Hu2 & m2 & Hs2 & HF2).
    split; [congruence|]. exists (m1 ++ m2).
    split; [now rewrite Hs2, Hs1, app_assoc|].
    apply Forall_app. split.
    + eapply Forall_impl; [exact HF1|]. now intros rq <-.
    + rewrite Hu1 in HF2. exact HF2.
Qed.

Lemma requests_go_to_the_subscribers_url_witness :
  url (sub (mkSystem (mkSubscriber "u" None 8 0)
              (mkWorld [segment "8"] [mkRequest "u" (-1)] 1%nat) 1%nat)) =
    url (sub (start "u" [segment "7"; segment "8"])) /\
  exists more,
    sent (world (mkSystem (mkSubscriber "u" None 8 0)
                   (mkWorld [segment "8"] [mkRequest "u" (-1)] 1%nat) 1%nat)) =
      sent (world (start "u" [segment "7"; segment "8"])) ++ more /\
    Forall (fun rq => req_base rq = url (sub (start "u" [segment "7"; segment "8"]))) more.
Proof.
  apply (requests_go_to_the_subscribers_url [CallRead]
           (start "u" [segment "7"; segment "8"])
           [Returned (Some (mkResponse O 200 {[ "Lp-Trickle-Seq" := ["7"] ]} "segment")) None]).
  vm_compute. reflexivity.
Defined.

Lemma step_untouched a s o s' :
  untouched s ->
  step a s = Some (o, s') ->
  (sent (world s') = sent (world s) /\ untouched s') \/
  exists more,
    sent (world s') = sent (world s) ++ mkRequest (url (sub s)) (-1) :: more.
Proof.
  destruct s as [c w k]. intros (Hi & Hp & Hk). cbn [sub world waiting] in *.
  subst k. destruct a; cbn [step sub world waiting]; [|discriminate].
  destruct (Read c w) as [out|] eqn:HR; [|discriminate].
  intros [= <- <-]. cbn [sub world].
  assert (Hrq : request_of c = mkRequest (url c) (-1))
    by (unfold request_of; now rewrite Hi).
  assert (Hsent : forall r w1, preconnect c w = Some (r, w1) ->
            (sent w1 = sent w /\ forall resp, r <> inl resp) \/
            exists more, sent w1 = sent w ++ mkRequest (url c) (-1) :: more).
  { intros r w1 H. apply preconnect_sent in H. now rewrite Hrq in H. }
  apply Read_inv in HR.
  destruct HR as [Hgt|err c1 w1 Hle Hcur|conn c1 w1 Hle Hcur Heos|conn c1 w1 Hle Hcur Heos];
    cbn [sub_after world_after started].
  - left. split; [reflexivity|]. repeat split; assumption.
  - apply current_segment_err in Hcur as (_ & Hpre & ->).
    apply Hsent in Hpre as [[Hs _]|Hmore]; [left|now right].
    split; [exact Hs|]. repeat split; assumption.
  - apply current_segment_conn in Hcur as [(Hp' & _)|(_ & Hpre & ->)]; [congruence|].
    apply Hsent in Hpre as [[_ Hno]|Hmore]; [|now right].
    exfalso. now apply (Hno conn).
  - apply current_segment_conn in Hcur as [(Hp' & _)|(_ & Hpre & ->)]; [congruence|].
    apply Hsent in Hpre as [[_ Hno]|Hmore]; [|now right].
    exfalso. now apply (Hno conn).
Qed.

(** X8: the first request of a new subscriber asks for index -1, the
    shortcut for the latest segment, whatever came before it (failed
    request constructions, Reads refused for too many errors). *)
Theorem first_request_asks_for_latest u scr acts os s' :
  run acts (start u scr) = Some (os, s') ->
  sent (world s') = [] \/
  exists more, sent (world s') = mkRequest u (-1) :: more.
Proof.
  assert (Hgen : forall acts s os s',
            untouched s -> run acts s = Some (os, s') ->
            sent (world s') = sent (world s) \/
            exists more,
              sent (world s') = sent (world s) ++ mkRequest (url (sub s)) (-1) :: more).
  { clear. induction acts as [|a acts IH]; intros s os s' Hun; cbn [run].
    - intros [= <- <-]. now left.
    - destruct (step a s) as [[o s1]|] eqn:Hstep; [|discriminate].
      destruct (run acts s1) as [[os1 s2]|] eqn:Hrun; [|discriminate].
      intros [= <- <-].
      pose proof (step_requests _ _ _ _ Hstep) as (Hu & _).
      destruct (step_untouched _ _ _ _ Hun Hstep) as [[Hs Hun1]|[more Hs]].
      + destruct (IH _ _ _ Hun1 Hrun) as [Hs2|[more Hs2]].
        * left. congruence.
        * right. exists more. now rewrite Hs2, Hs, Hu.
      + right. apply run_monotone in Hrun as (_ & m2 & Hs2).
        exists (more ++ m2). now rewrite Hs2, Hs, <- app_assoc. }
  intros Hrun. apply Hgen in Hrun; [exact Hrun|].
  repeat split.
Qed.

Lemma first_request_asks_for_latest_witness :
  sent (world (mkSystem (mkSubscriber "u" None 8 0)
                 (mkWorld [segment "8"] [mkRequest "u" (-1)] 1%nat) 1%nat)) = [] \/
  exists more,
    sent (world (mkSystem (mkSubscriber "u" None 8 0)
                   (mkWorld [segment "8"] [mkRequest "u" (-1)] 1%nat) 1%nat)) =
      mkRequest "u" (-1) :: more.
Proof.
  apply (first_request_asks_for_latest "u" [BadRequest "bad"; segment "7"; segment "8"]
           [CallRead; CallRead]
           [Returned None (Some (RequestError "bad"));
            Returned (Some (mkResponse O 200 {[ "Lp-Trickle-Seq" := ["7"] ]} "segment")) None]).
  vm_compute. reflexivity.
Defined.

(** ** What is handed out *)

Lemma preconnect_loop_status c s : forall w resp w1,
  preconnect_loop c s w = Some (inl resp, w1) -> StatusCode resp = StatusOK.
Proof.
  induction s as [|a s IH]; intros w resp w1; cbn [preconnect_loop]; [discriminate|].
  destruct a as [|cause|cause|r].
  - rewrite connect_NoAnswer. apply IH.
  - discriminate.
  - discriminate.
  - cbn. destruct (Z.eqb_spec (reply_status r) StatusOK) as [Heq|Hne]; cbn.
    + intros [= <- <-]. exact Heq.
    + discriminate.
Qed.

Lemma step_status a s o s' :
  pending_ok (sub s) ->
  step a s = Some (o, s') ->
  pending_ok (sub s') /\
  (forall conn err, o = Returned (Some conn) err -> StatusCode conn = StatusOK).
Proof.
  destruct s as [c w k]. intros Hok. cbn [sub] in Hok.
  destruct a; cbn [step sub world waiting].
  - destruct (Read c w) as [out|] eqn:HR; [|discriminate].
    intros [= <- <-]. cbn [sub].
    pose proof (Read_keeps_pendingGet _ _ _ HR) as Hkeep.
    split; [unfold pending_ok; now rewrite Hkeep|].
    intros conn err [= Hc _].
    apply Read_inv in HR.
    destruct HR as [Hgt|e c1 w1 Hle Hcur|cn c1 w1 Hle Hcur Heos|cn c1 w1 Hle Hcur Heos];
      cbn [ret_conn] in Hc; try discriminate.
    injection Hc as ->.
    apply current_segment_conn in Hcur as [(Hp & _)|(_ & Hpre & _)].
    + now apply Hok.
    + eapply preconnect_loop_status. exact Hpre.
  - destruct k as [|k]; [discriminate|]. unfold background.
    destruct (preconnect c w) as [[[p|e] w1]|] eqn:Hpre; [| |discriminate];
      intros [= <- <-]; cbn [sub]; (split; [|discriminate]).
    + intros q. cbn [pendingGet]. intros [= <-].
      eapply preconnect_loop_status. exact Hpre.
    + exact Hok.
Qed.

(** X9: every connection Read hands out has status 200: a response
    with another status never reaches the caller, neither directly nor
    through the look-ahead. *)
Theorem handed_out_connections_have_status_200 u scr acts os s' :
  run acts (start u scr) = Some (os, s') ->
  Forall (fun conn => StatusCode conn = StatusOK) (handed_out os).
Proof.
  assert (Hgen : forall acts s os s',
            pending_ok (sub s) -> run acts s = Some (os, s') ->
            Forall (fun conn => StatusCode conn = StatusOK) (handed_out os)).
  { clear. induction acts as [|a acts IH]; intros s os s' Hok; cbn [run].
    - intros [= <- <-]. constructor.
    - destruct (step a s) as [[o s1]|] eqn:Hstep; [|discriminate].
      destruct (run acts s1) as [[os1 s2]|] eqn:Hrun; [|discriminate].
      intros [= <- <-].
      destruct (step_status _ _ _ _ Hok Hstep) as [Hok1 Hret].
      specialize (IH _ _ _ Hok1 Hrun).
      destruct o as [[conn|] err|]; cbn [handed_out]; try exact IH.
      constructor; [|exact IH]. eapply Hret. reflexivity. }
  apply Hgen. intros p. discriminate.
Qed.

Lemma handed_out_connections_have_status_200_witness :
  Forall (fun conn => StatusCode conn = StatusOK)
    (handed_out
       [Returned None (Some (StatusError 404 "gone"));
        Returned (Some (mkResponse O 200 {[ "Lp-Trickle-Seq" := ["7"] ]} "segment")) None]).
Proof.
  apply (handed_out_connections_have_status_200 "u"
           [Answer (mkReply 404 ∅ "gone"); segment "7"]
           [CallRead; CallRead]
           [Returned None (Some (StatusError 404 "gone"));
            Returned (Some (mkResponse O 200 {[ "Lp-Trickle-Seq" := ["7"] ]} "segment")) None]
           (mkSystem (mkSubscriber "u" None 8 0)
              (mkWorld [] [mkRequest "u" (-1); mkRequest "u" (-1)] 1%nat) 1%nat)).
  vm_compute. reflexivity.
Defined.

(** X10: the pending connection is never taken away: neither Read nor
    the goroutine sets pendingGet back to nil, so once a look-ahead has
    stored a connection every later state has one as well. *)
Theorem pending_connection_is_never_cleared acts : forall s os s',
  run acts s = Some (os, s') ->
  is_Some (pendingGet (sub s)) ->
  is_Some (pendingGet (sub s')).
Proof.
  induction acts as [|a acts IH]; intros s os s'; cbn [run].
  - now intros [= <- <-] Hsome.
  - destruct (step a s) as [[o s1]|] eqn:Hstep; [|discriminate].
    destruct (run acts s1) as [[os1 s2]|] eqn:Hrun; [|discriminate].
    intros [= <- <-] Hsome. apply (IH _ _ _ Hrun).
    destruct s as [c w k]. destruct a; cbn [step sub world waiting] in Hstep.
    + destruct (Read c w) as [out|] eqn:HR; [|discriminate].
      injection Hstep as <- <-. cbn [sub].
      now rewrite (Read_keeps_pendingGet _ _ _ HR).
    + destruct k as [|k]; [discriminate|]. unfold background in Hstep.
      destruct (preconnect c w) as [[[p|e] w1]|]; [| |discriminate];
        injection Hstep as <- <-; cbn [sub pendingGet]; [eauto | exact Hsome].
Qed.

Lemma pending_connection_is_never_cleared_witness :
  is_Some (pendingGet
             (sub (mkSystem
                     (mkSubscriber "u"
                        (Some (mkResponse 1 200 {[ "Lp-Trickle-Seq" := ["8"] ]} "segment")) 9 1)
                     (mkWorld [] [mkRequest "u" 9] 2%nat) O))).
Proof.
  apply (pending_connection_is_never_cleared [CallRead; RunBackground]
           (mkSystem
              (mkSubscriber "u"
                 (Some (mkResponse 1 200 {[ "Lp-Trickle-Seq" := ["8"] ]} "segment")) 9 0)
              (mkWorld [DoFails "reset"] [] 2%nat) O)
           [Returned (Some (mkResponse 1 200 {[ "Lp-Trickle-Seq" := ["8"] ]} "segment")) None;
            Prefetched]).
  - vm_compute. reflexivity.
  - eexists. reflexivity.
Defined.

(** X11: with an open connection pending, every Read hands out that
    same connection, again and again, for as long as no goroutine
    replaces it; each of these Reads starts one more goroutine and none
    makes a request. *)
Theorem pending_connection_is_handed_out_by_every_Read c w k p n :
  pendingGet c = Some p ->
  preconnectErrorCount c <= 5 ->
  IsEOS p = false ->
  run (replicate (S n) CallRead) (mkSystem c w k) =
    Some (replicate (S n) (Returned (Some p) None),
          mkSystem (set_idx (next_idx p (idx c)) c) w (S n + k)).
Proof.
  intros Hp Hle Heos.
  assert (Hstep : forall c0 k0,
            pendingGet c0 = Some p -> preconnectErrorCount c0 <= 5 ->
            step CallRead (mkSystem c0 w k0) =
              Some (Returned (Some p) None,
                    mkSystem (set_idx (next_idx p (idx c0)) c0) w (S k0))).
  { intros c0 k0 Hp0 Hle0. cbn [step sub world waiting].
    rewrite Read_below_max by assumption. unfold current_segment.
    rewrite Hp0, Heos. cbn. repeat f_equal.
    unfold set_idx, next_idx. destruct (negb _); [reflexivity | now destruct c0]. }
  assert (Hfix : set_idx (next_idx p (idx (set_idx (next_idx p (idx c)) c)))
                   (set_idx (next_idx p (idx c)) c) = set_idx (next_idx p (idx c)) c).
  { unfold set_idx, next_idx. cbn. destruct (negb _); reflexivity. }
  assert (Hrest : forall m k0,
            run (replicate m CallRead)
              (mkSystem (set_idx (next_idx p (idx c)) c) w k0) =
            Some (replicate m (Returned (Some p) None),
                  mkSystem (set_idx (next_idx p (idx c)) c) w (m + k0))).
  { induction m as [|m IHm]; intros k0; [reflexivity|].
    cbn [replicate run]. rewrite Hstep by (cbn; assumption).
    rewrite Hfix, IHm. replace (m + S k0)%nat with (S m + k0)%nat by lia.
    reflexivity. }
  cbn [replicate run]. rewrite Hstep by assumption. rewrite Hrest.
  replace (n + S k)%nat with (S n + k)%nat by lia. reflexivity.
Qed.

Lemma pending_connection_is_handed_out_by_every_Read_witness :
  run (replicate 3 CallRead)
    (mkSystem
       (mkSubscriber "u" (Some (mkResponse 1 200 {[ "Lp-Trickle-Seq" := ["8"] ]} "segment")) 9 0)
       (mkWorld [] [] 2%nat) O) =
    Some (replicate 3
            (Returned (Some (mkResponse 1 200 {[ "Lp-Trickle-Seq" := ["8"] ]} "segment")) None),
          mkSystem
            (set_idx
               (next_idx (mkResponse 1 200 {[ "Lp-Trickle-Seq" := ["8"] ]} "segment") 9)
               (mkSubscriber "u"
                  (Some (mkResponse 1 200 {[ "Lp-Trickle-Seq" := ["8"] ]} "segment")) 9 0))
            (mkWorld [] [] 2%nat) (3 + 0)).
Proof.
  apply (pending_connection_is_handed_out_by_every_Read
           (mkSubscriber "u"
              (Some (mkResponse 1 200 {[ "Lp-Trickle-Seq" := ["8"] ]} "segment")) 9 0)
           (mkWorld [] [] 2%nat) O
           (mkResponse 1 200 {[ "Lp-Trickle-Seq" := ["8"] ]} "segment") 2).
  - reflexivity.
  - vm_compute. discriminate.
  - vm_compute. reflexivity.
Defined.

(** ** Too many errors *)

(** X12: a subscriber whose error count is above 5 while no goroutine
    waits is finished for good: nothing but Read can run, every Read
    returns "Hit max preconnects", and subscriber and network stay as
    they are. *)
Theorem too_many_errors_is_final s :
  5 < preconnectErrorCount (sub s) ->
  waiting s = O ->
  (forall n, run (replicate n CallRead) s =
               Some (replicate n (Returned None (Some HitMaxPreconnects)), s)) /\
  (forall acts os s2, run acts s = Some (os, s2) ->
     s2 = s /\ Forall (eq (Returned None (Some HitMaxPreconnects))) os).
Proof.
  intros Hgt Hw.
  assert (Hstep : step CallRead s = Some (Returned None (Some HitMaxPreconnects), s)).
  { destruct s as [c w k]. cbn [step sub world waiting] in *.
    rewrite Read_hit_max by assumption. reflexivity. }
  split.
  - induction n as [|n IH]; [reflexivity|].
    cbn [replicate run]. now rewrite Hstep, IH.
  - induction acts as [|a acts IH]; intros os s2; cbn [run].
    + intros [= <- <-]. split; [reflexivity | constructor].
    + destruct a.
      * rewrite Hstep.
        destruct (run acts s) as [[os1 s3]|] eqn:Hrun; [|discriminate].
        intros [= <- <-]. destruct (IH _ _ eq_refl) as [-> HF].
        split; [reflexivity|]. now constructor.
      * unfold step. rewrite Hw. discriminate.
Qed.

Lemma too_many_errors_is_final_witness :
  (forall n,
     run (replicate n CallRead)
       (mkSystem (mkSubscriber "u" None (-1) 6) (mkWorld [segment "1"] [] O) O) =
       Some (replicate n (Returned None (Some HitMaxPreconnects)),
             mkSystem (mkSubscriber "u" None (-1) 6) (mkWorld [segment "1"] [] O) O)) /\
  (forall acts os s2,
     run acts (mkSystem (mkSubscriber "u" None (-1) 6) (mkWorld [segment "1"] [] O) O) =
       Some (os, s2) ->
     s2 = mkSystem (mkSubscriber "u" None (-1) 6) (mkWorld [segment "1"] [] O) O /\
     Forall (eq (Returned None (Some HitMaxPreconnects))) os).
Proof.
  apply (too_many_errors_is_final
           (mkSystem (mkSubscriber "u" None (-1) 6) (mkWorld [segment "1"] [] O) O)).
  - reflexivity.
  - reflexivity.
Defined.

(** ** Delivery in order *)

Lemma preconnect_numbered c w n a scr :
  numbered n a ->
  script w = a :: scr ->
  exists resp,
    preconnect c w =
      Some (inl resp, mkWorld scr (sent w ++ [request_of c]) (S (next_addr w))) /\
    GetSeq (Some resp) = n /\ IsEOS resp = false.
Proof.
  intros (r & -> & Hst & Hcl & Hseq) Hs.
  unfold preconnect. rewrite Hs. cbn [preconnect_loop connect].
  rewrite Hst. cbn.
  eexists. split; [reflexivity|]. split.
  - unfold GetSeq. cbn [Header]. now rewrite Hseq.
  - unfold IsEOS. cbn [Header]. now rewrite Hcl.
Qed.

Lemma add_one m :
  0 <= m -> m + 1 <= GoInt.max_int ->
  negb (m =? -1) = true /\ GoInt.add m 1 = m + 1.
Proof.
  intros H0 Hm. split.
  - apply negb_eqb_minus1. lia.
  - apply GoIntFacts.add_small. unfold GoInt.min_int, GoInt.max_int in *. lia.
Qed.

(** One round with a connection pending: the Read hands it out, the
    goroutine fetches the next index and stores what it gets. *)
Lemma round_with_pending c w p m a scr :
  pendingGet c = Some p ->
  preconnectErrorCount c <= 5 ->
  IsEOS p = false ->
  GetSeq (Some p) = m ->
  0 <= m -> m + 2 <= GoInt.max_int ->
  numbered (m + 1) a ->
  script w = a :: scr ->
  exists resp,
    run [CallRead; RunBackground] (mkSystem c w O) =
      Some ([Returned (Some p) None; Prefetched],
            mkSystem (mkSubscriber (url c) (Some resp) (m + 2) 0)
              (mkWorld scr (sent w ++ [mkRequest (url c) (m + 1)]) (S (next_addr w))) O) /\
    GetSeq (Some resp) = m + 1 /\ IsEOS resp = false.
Proof.
  intros Hp Hle Heos Hm H0 Hmax Hnum Hs.
  destruct (add_one m H0 ltac:(lia)) as [Hb1 Ha1].
  destruct (add_one (m + 1) ltac:(lia) ltac:(lia)) as [Hb2 Ha2].
  cbn [run step sub world waiting].
  rewrite Read_below_max by assumption. unfold current_segment.
  rewrite Hp, Heos, Hm, Hb1, Ha1.
  cbn [ret_conn ret_err sub_after world_after started sub world waiting].
  unfold background.
  edestruct (preconnect_numbered
               {| url := url c; pendingGet := pendingGet c; idx := m + 1;
                  preconnectErrorCount := preconnectErrorCount c |}
               w (m + 1) a scr Hnum Hs) as (resp & Hpre & Hseq & Hopen).
  rewrite Hpre, Hseq, Hb2, Ha2. unfold request_of. cbn [url idx].
  exists resp. replace (m + 1 + 1) with (m + 2) by lia. auto.
Qed.

Lemma rounds_with_pending k : forall c w p m scr rest,
  pendingGet c = Some p ->
  preconnectErrorCount c <= 5 ->
  IsEOS p = false ->
  GetSeq (Some p) = m ->
  0 <= m -> m + Z.of_nat k + 1 <= GoInt.max_int ->
  ascending (m + 1) scr ->
  length scr = k ->
  script w = scr ++ rest ->
  exists os s',
    run (rounds k) (mkSystem c w O) = Some (os, s') /\
    seqs_of os = count_from m k /\
    req_idx <$> sent (world s') = (req_idx <$> sent w) ++ count_from (m + 1) k /\
    script (world s') = rest /\
    waiting s' = O /\
    preconnectErrorCount (sub s') <= 5 /\
    url (sub s') = url c.
Proof.
  induction k as [|k IH]; intros c w p m scr rest Hp Hle Heos Hm H0 Hmax Hasc Hlen Hs.
  - destruct scr; [|discriminate]. cbn [rounds run].
    do 2 eexists. split; [reflexivity|]. cbn.
    rewrite app_nil_r. repeat split; auto.
  - destruct scr as [|a scr]; [discriminate|]. destruct Hasc as [Hnum Hasc].
    injection Hlen as Hlen. cbn [app] in Hs.
    destruct (round_with_pending c w p m a (scr ++ rest) Hp Hle Heos Hm H0
                ltac:(lia) Hnum Hs) as (resp & Hround & Hseq & Hopen).
    edestruct (IH (mkSubscriber (url c) (Some resp) (m + 2) 0)
                 (mkWorld (scr ++ rest) (sent w ++ [mkRequest (url c) (m + 1)])
                    (S (next_addr w)))
                 resp (m + 1) scr rest)
      as (os & s' & Hrun & Hseqs & Hreq & Hscr & Hwait & Hcnt & Hurl);
      try reflexivity; try assumption; try (cbn; lia).
    cbn [rounds]. change (CallRead :: RunBackground :: rounds k)
      with ([CallRead; RunBackground] ++ rounds k).
    cbn [run app] in Hround |- *.
    destruct (step CallRead (mkSystem c w O)) as [[o1 s1]|]; [|discriminate].
    destruct (step RunBackground s1) as [[o2 s2]|]; [|discriminate].
    injection Hround as -> -> ->. rewrite Hrun.
    do 2 eexists. split; [reflexivity|].
    unfold seqs_of in *. cbn [handed_out fmap list_fmap] in *.
    split; [cbn [count_from]; now rewrite Hm, <- Hseqs|].
    split; [|auto].
    rewrite Hreq. cbn [sent]. rewrite fmap_app, <- app_assoc. reflexivity.
Qed.

(** X13: delivery in order.  When the server answers with segments
    numbered [n], [n + 1], [n + 2], ..., and every Read is followed by
    the goroutine it started, the Reads hand out the segments [n] to
    [n + k] in order, each once; the requests go to index -1 and then to
    [n + 1], ..., [n + k + 1], one each; nothing is left waiting. *)
Theorem segments_are_delivered_in_order u n k scr rest :
  0 <= n ->
  n + Z.of_nat k + 2 <= GoInt.max_int ->
  ascending n scr ->
  length scr = S (S k) ->
  exists os s',
    run (rounds (S k)) (start u (scr ++ rest)) = Some (os, s') /\
    seqs_of os = count_from n (S k) /\
    req_idx <$> sent (world s') = -1 :: count_from (n + 1) (S k) /\
    NoDup (handed_out os) /\
    script (world s') = rest /\
    waiting s' = O.
Proof.
  intros H0 Hmax Hasc Hlen.
  destruct scr as [|a0 [|a1 scr]]; try discriminate.
  destruct Hasc as (Hn0 & Hn1 & Hasc). injection Hlen as Hlen.
  destruct (add_one n H0 ltac:(lia)) as [Hb1 Ha1].
  destruct (add_one (n + 1) ltac:(lia) ltac:(lia)) as [Hb2 Ha2].
  (* the first round: a synchronous fetch of the latest segment *)
  assert (Hfirst : exists resp0 resp1,
            run [CallRead; RunBackground] (start u ((a0 :: a1 :: scr) ++ rest)) =
              Some ([Returned (Some resp0) None; Prefetched],
                    mkSystem (mkSubscriber u (Some resp1) (n + 2) 0)
                      (mkWorld (scr ++ rest) [mkRequest u (-1); mkRequest u (n + 1)] 2%nat) O) /\
            GetSeq (Some resp0) = n /\ GetSeq (Some resp1) = n + 1 /\
            IsEOS resp1 = false).
  { unfold start. cbn [run step sub world waiting app].
    rewrite Read_below_max by (cbn; lia). unfold current_segment.
    cbn [pendingGet NewTrickleSubscriber].
    edestruct (preconnect_numbered (NewTrickleSubscriber u)
                 (mkWorld (a0 :: a1 :: scr ++ rest) [] O) n a0 (a1 :: scr ++ rest)
                 Hn0 eq_refl) as (resp0 & Hpre0 & Hseq0 & Hopen0).
    rewrite Hpre0, Hopen0, Hseq0, Hb1, Ha1.
    cbn [ret_conn ret_err sub_after world_after started sub world waiting
         url pendingGet idx preconnectErrorCount NewTrickleSubscriber].
    unfold background.
    match goal with
    | |- context [preconnect ?c1 ?w1] =>
        edestruct (preconnect_numbered c1 w1 (n + 1) a1 (scr ++ rest) Hn1 eq_refl)
          as (resp1 & Hpre1 & Hseq1 & Hopen1)
    end.
    rewrite Hpre1, Hseq1, Hb2, Ha2.
    exists resp0, resp1. cbn. replace (n + 1 + 1) with (n + 2) by lia. auto. }
  destruct Hfirst as (resp0 & resp1 & Hround & Hseq0 & Hseq1 & Hopen1).
  edestruct (rounds_with_pending k (mkSubscriber u (Some resp1) (n + 2) 0)
               (mkWorld (scr ++ rest) [mkRequest u (-1); mkRequest u (n + 1)] 2%nat)
               resp1 (n + 1) scr rest)
    as (os & s' & Hrun & Hseqs & Hreq & Hscr & Hwait & _);
    try reflexivity; try assumption; try (cbn; lia).
  cbn [rounds]. cbn [run] in Hround |- *.
  destruct (step CallRead (start u ((a0 :: a1 :: scr) ++ rest))) as [[o1 s1]|];
    [|discriminate].
  destruct (step RunBackground s1) as [[o2 s2]|]; [|discriminate].
  injection Hround as -> -> ->. rewrite Hrun.
  do 2 eexists. split; [reflexivity|].
  assert (Hall : seqs_of (Returned (Some resp0) None :: Prefetched :: os) =
                 count_from n (S k)).
  { unfold seqs_of in *. cbn [handed_out fmap list_fmap count_from].
    now rewrite Hseq0, <- Hseqs. }
  split; [exact Hall|]. split; [|split; [|auto]].
  - rewrite Hreq. reflexivity.
  - unfold seqs_of in Hall. eapply (NoDup_fmap_1 (fun conn => GetSeq (Some conn))).
    rewrite Hall. clear. generalize n. induction (S k) as [|j IH]; intros m.
    + constructor.
    + cbn [count_from]. constructor; [|apply IH].
      intros Hin.
      assert (Hge : forall j m x, x ∈ count_from m j -> m <= x).
      { clear. induction j as [|j IHj]; intros m x; cbn [count_from].
        - inversion 1.
        - intros Hx. apply elem_of_cons in Hx as [->|Hx]; [lia|].
          apply IHj in Hx. lia. }
      apply Hge in Hin. lia.
Qed.

Lemma segments_are_delivered_in_order_witness :
  exists os s',
    run (rounds 2) (start "u" ([segment "7"; segment "8"; segment "9"] ++ [segment "10"])) =
      Some (os, s') /\
    seqs_of os = count_from 7 2 /\
    req_idx <$> sent (world s') = -1 :: count_from (7 + 1) 2 /\
    NoDup (handed_out os) /\
    script (world s') = [segment "10"] /\
    waiting s' = O.
Proof.
  apply (segments_are_delivered_in_order "u" 7 1 [segment "7"; segment "8"; segment "9"]).
  - lia.
  - vm_compute. discriminate.
  - cbn [ascending]. repeat split; eexists; (split; [reflexivity|]); repeat split.
  - reflexivity.
Defined.

(** ** A closed connection behind too many errors *)

(** C5 (as stated) fails: seven Reads run before any of their goroutines;
    the first goroutine then stores a closed connection and the other
    six fail, which leaves the closed connection pending with an error
    count of 6.  Read there returns "Hit max preconnects", not EOS. *)
Lemma C5_closed_connection_behind_too_many_errors :
  exists os s p,
    run (replicate 7 CallRead ++ replicate 7 RunBackground)
      (start "u" closed_then_failures) = Some (os, s) /\
    pendingGet (sub s) = Some p /\
    Header_Get (Header p) "Lp-Trickle-Closed" <> EmptyString /\
    preconnectErrorCount (sub s) = 6 /\
    step CallRead s = Some (Returned None (Some HitMaxPreconnects), s) /\
    HitMaxPreconnects <> EOS.
Proof.
  do 3 eexists. split; [vm_compute; reflexivity|].
  split; [reflexivity|]. split; [vm_compute; discriminate|].
  split; [reflexivity|]. split; [vm_compute; reflexivity | discriminate].
Qed.

(** ** The index and the last sequence number *)

Lemma note_twice last conn : note (note last (Some conn)) (Some conn) = note last (Some conn).
Proof.
  unfold note. destruct (Atoi _) as [v|]; [|reflexivity].
  destruct (v =? -1); reflexivity.
Qed.

Lemma note_next_idx last conn i :
  (forall v, last = Some v ->
     GoInt.min_int <= v <= GoInt.max_int /\ i = GoInt.add v 1) ->
  forall v, note last (Some conn) = Some v ->
    GoInt.min_int <= v <= GoInt.max_int /\ next_idx conn i = GoInt.add v 1.
Proof.
  intros Hlast v. unfold note, next_idx.
  destruct (Atoi (Header_Get (Header conn) "Lp-Trickle-Seq")) as [x|] eqn:Hx;
    [|discriminate].
  rewrite (GetSeq_numbered _ _ Hx).
  destruct (x =? -1) eqn:Hm; cbn [negb].
  - apply Hlast.
  - intros [= <-]. split; [now apply Atoi_in_range in Hx | reflexivity].
Qed.

Lemma follows_set_count c last n : follows c last -> follows (set_count n c) last.
Proof. intros H. exact H. Qed.

(** Every step keeps the index in step with the last sequence number. *)
Lemma step_follows a s o s' last :
  follows (sub s) last ->
  step a s = Some (o, s') ->
  follows (sub s') (note last (applied a s)).
Proof.
  destruct s as [c w k]. intros [Hidx Hpend]. cbn [sub] in Hidx, Hpend.
  destruct a; cbn [step applied sub world waiting].
  - destruct (Read c w) as [out|] eqn:HR; [|discriminate].
    intros [= <- <-]. cbn [sub].
    apply Read_inv in HR.
    destruct HR as [Hgt|err c1 w1 Hle Hcur|conn c1 w1 Hle Hcur Heos|conn c1 w1 Hle Hcur Heos];
      cbn [ret_conn sub_after note].
    + split; assumption.
    + apply current_segment_err in Hcur as (_ & _ & ->). split; assumption.
    + apply current_segment_conn in Hcur as [(_ & -> & _)|(_ & _ & ->)];
        split; assumption.
    + assert (Hc1 : idx c1 = idx c /\ pendingGet c1 = pendingGet c /\
                    (forall p, pendingGet c = Some p -> p = conn)).
      { apply current_segment_conn in Hcur as [(Hp & -> & _)|(Hp & _ & ->)].
        - repeat split. intros p. rewrite Hp. now intros [= <-].
        - repeat split. intros p. rewrite Hp. discriminate. }
      destruct Hc1 as (Hi & Hp & Hsame). split.
      * cbn [set_idx idx]. rewrite Hi. apply note_next_idx. exact Hidx.
      * cbn [set_idx pendingGet]. rewrite Hp. intros p Hpp.
        rewrite (Hsame p Hpp). apply note_twice.
  - destruct k as [|k]; [discriminate|]. unfold background.
    destruct (preconnect c w) as [[[p|e] w1]|] eqn:Hpre; [| |discriminate];
      intros [= <- <-]; cbn [sub note].
    + split.
      * cbn [idx]. apply (note_next_idx last p (idx c)). exact Hidx.
      * cbn [pendingGet]. intros q [= <-]. apply note_twice.
    + split; assumption.
Qed.

Lemma run_follows acts : forall s os s' last,
  follows (sub s) last ->
  run acts s = Some (os, s') ->
  follows (sub s') (last_seen acts s last).
Proof.
  induction acts as [|a acts IH]; intros s os s' last Hf; cbn [run last_seen].
  - now intros [= <- <-].
  - destruct (step a s) as [[o s1]|] eqn:Hstep; [|discriminate].
    destruct (run acts s1) as [[os1 s2]|] eqn:Hrun; [|discriminate].
    intros [= <- <-]. eapply IH; [|exact Hrun].
    eapply step_follows; eassumption.
Qed.

(** C4 (as the code has it): at any point of any run of a new
    subscriber, if the last connection that was handed out or stored
    with a concrete sequence number carried [v], below the largest int,
    and no connection with a missing or unparsable sequence header has
    been handed out or stored since, then the index stands at [v + 1]
    and every request of the step that comes next, a Read or a
    goroutine, goes to that index, strictly above [v]. *)
Theorem C4_requests_exceed_the_last_sequence_number
  u scr acts os s' v a o s'' :
  run acts (start u scr) = Some (os, s') ->
  last_seen acts (start u scr) None = Some v ->
  v < GoInt.max_int ->
  step a s' = Some (o, s'') ->
  idx (sub s') = v + 1 /\
  exists more,
    sent (world s'') = sent (world s') ++ more /\
    Forall (fun rq => req_idx rq = v + 1 /\ v < req_idx rq) more.
Proof.
  intros Hrun Hlast Hmax Hstep.
  assert (Hstart : follows (sub (start u scr)) None).
  { split; [discriminate|]. intros p. discriminate. }
  destruct (run_follows _ _ _ _ _ Hstart Hrun) as [Hidx _].
  destruct (Hidx v Hlast) as [Hrange Hi].
  rewrite GoIntFacts.add_small in Hi
    by (unfold GoInt.min_int, GoInt.max_int in *; lia).
  split; [exact Hi|].
  apply step_requests in Hstep as (_ & more & Hs & HF).
  exists more. split; [exact Hs|].
  eapply Forall_impl; [exact HF|].
  intros rq <-. unfold request_of. cbn [req_idx]. lia.
Qed.

Lemma C4_requests_exceed_the_last_sequence_number_witness :
  idx (sub (mkSystem (mkSubscriber "u" None 8 0)
              (mkWorld [segment "8"] [mkRequest "u" (-1)] 1%nat) 1%nat)) = 7 + 1 /\
  exists more,
    sent (world (mkSystem
                   (mkSubscriber "u"
                      (Some (mkResponse 1 200 {[ "Lp-Trickle-Seq" := ["8"] ]} "segment")) 9 0)
                   (mkWorld [] [mkRequest "u" (-1); mkRequest "u" 8] 2%nat) O)) =
      sent (world (mkSystem (mkSubscriber "u" None 8 0)
                     (mkWorld [segment "8"] [mkRequest "u" (-1)] 1%nat) 1%nat)) ++ more /\
    Forall (fun rq => req_idx rq = 7 + 1 /\ 7 < req_idx rq) more.
Proof.
  apply (C4_requests_exceed_the_last_sequence_number "u" [segment "7"; segment "8"]
           [CallRead]
           [Returned (Some (mkResponse O 200 {[ "Lp-Trickle-Seq" := ["7"] ]} "segment")) None]
           (mkSystem (mkSubscriber "u" None 8 0)
              (mkWorld [segment "8"] [mkRequest "u" (-1)] 1%nat) 1%nat)
           7 RunBackground Prefetched).
  - vm_compute. reflexivity.
  - vm_compute. reflexivity.
  - reflexivity.
  - vm_compute. reflexivity.
Defined.

End TrickleMore.

(** * Further properties of the dispatcher *)

Module MediaMore.
Import Media MediaRuns MediaFacts.

Section Threads.
Context {W : Type} (go_discard : Reader -> W -> W).

Lemma tally_positive (f : @thread W -> nat) l :
  (0 < tally f l)%nat -> exists m t, l !! m = Some t /\ (0 < f t)%nat.
Proof.
  induction l as [|x l IH]; [cbn; lia|].
  rewrite tally_cons. intros H.
  destruct (f x) as [|j] eqn:Hx.
  - destruct IH as (m & t & Hl & Ht); [lia|]. exists (S m), t. auto.
  - exists O, x. split; [reflexivity | lia].
Qed.

Lemma fair_exec_pool i (c c1 : @MediaFair.FairConfig W) :
  MediaFair.fair_exec i c = Some c1 -> MediaFair.f_pool c1 = MediaFair.f_pool c.
Proof.
  destruct i; cbn;
    repeat match goal with |- context [if ?b then _ else _] => destruct b end;
    intros [= <-]; reflexivity.
Qed.

(** Who is inside what, before and after each step of a method body. *)
Lemma fair_regions_around (t : @thread W) i :
  MediaFair.fair_code (th_call t) !! th_pc t = Some i ->
  (MediaFair.reading_now t, MediaFair.holding_w t,
   (MediaFair.reading_now (advance t), MediaFair.holding_w (advance t))) =
  match i with
  | MediaFair.Announce => (0, 0, (0, 1))
  | MediaFair.Drain => (0, 1, (0, 1))
  | MediaFair.BeginStore => (0, 1, (0, 1))
  | MediaFair.EndStore _ => (0, 1, (0, 1))
  | MediaFair.Release => (0, 1, (0, 0))
  | MediaFair.Enter => (0, 0, (1, 0))
  | MediaFair.CallHandler _ => (1, 0, (1, 0))
  | MediaFair.Leave => (1, 0, (0, 0))
  end%nat.
Proof.
  destruct t as [o pc]. unfold MediaFair.reading_now, MediaFair.holding_w, advance.
  cbn [th_call th_pc].
  destruct o; destruct pc as [|[|[|[|[|pc]]]]]; cbn; intros [= <-]; reflexivity.
Qed.

Lemma fair_init_invariant (w : W) calls :
  MediaFair.fair_invariant (MediaFair.fair_init go_discard w calls).
Proof.
  unfold MediaFair.fair_invariant, MediaFair.fair_init.
  cbn [MediaFair.f_mu MediaFair.f_pool MediaFair.inside MediaFair.announced].
  rewrite !tally_fresh by (intros []; reflexivity).
  split; reflexivity.
Qed.

Lemma fair_step_invariant n (c c' : @MediaFair.FairConfig W) :
  MediaFair.fair_invariant c -> MediaFair.fair_step n c = Some c' ->
  MediaFair.fair_invariant c'.
Proof.
  intros (Hr & Hw). unfold MediaFair.fair_step.
  destruct (MediaFair.f_pool c !! n) as [t|] eqn:Hl; [|discriminate].
  destruct (MediaFair.fair_code (th_call t) !! th_pc t) as [i|] eqn:Hi; [|discriminate].
  destruct (MediaFair.fair_exec i c) as [c1|] eqn:He; [|discriminate].
  intros [= <-]. unfold MediaFair.fair_invariant.
  cbn [MediaFair.f_mu MediaFair.f_pool].
  rewrite (fair_exec_pool _ _ _ He).
  pose proof (tally_insert MediaFair.reading_now _ _ _ (advance t) Hl) as Es.
  pose proof (tally_insert MediaFair.holding_w _ _ _ (advance t) Hl) as Ee.
  pose proof (fair_regions_around t i Hi) as Hreg.
  destruct (MediaFair.announced (MediaFair.f_mu c)) eqn:Ea; cbn [Nat.b2n] in Hw;
    destruct i; injection Hreg as Hr1 Hr2 Hr3 Hr4;
    rewrite ?Hr1, ?Hr2, ?Hr3, ?Hr4 in *;
    cbn in He; rewrite ?Ea in He; cbn in He; try discriminate.
  all: try (destruct (MediaFair.inside (MediaFair.f_mu c)) eqn:Er; cbn in He;
            try discriminate).
  all: try (destruct (MediaFair.f_torn c); cbn in He).
  all: injection He as <-;
    cbn [MediaFair.f_mu MediaFair.inside MediaFair.announced Nat.b2n Nat.pred].
  all: rewrite ?Ea; cbn [Nat.b2n]; split; lia.
Qed.

Lemma fair_run_invariant sched : forall c c' : @MediaFair.FairConfig W,
  MediaFair.fair_invariant c -> MediaFair.fair_run sched c = Some c' ->
  MediaFair.fair_invariant c'.
Proof.
  induction sched as [|n sched IH]; intros c c' Hinv; cbn [MediaFair.fair_run].
  - now intros [= <-].
  - destruct (MediaFair.fair_step n c) as [c1|] eqn:Hstep; [|discriminate].
    apply IH. eapply fair_step_invariant; eassumption.
Qed.

(** X14: the dispatcher cannot deadlock on its lock, taken as
    sync.RWMutex builds it: a writer that waits holds new readers back,
    and gets the lock once the readers inside have left.  In every
    configuration reachable by any interleaving of calls, as long as
    some call has not returned, some thread can take its next step. *)
Theorem dispatcher_never_deadlocks
  (w : W) calls sched (c : @MediaFair.FairConfig W) n t :
  MediaFair.fair_run sched (MediaFair.fair_init go_discard w calls) = Some c ->
  MediaFair.f_pool c !! n = Some t ->
  (th_pc t < length (MediaFair.fair_code (th_call t)))%nat ->
  exists m c', MediaFair.fair_step m c = Some c'.
Proof.
  intros Hrun Hl Hpc.
  destruct (fair_run_invariant _ _ _ (fair_init_invariant w calls) Hrun) as (Hr & Hw).
  assert (Hstep : forall m t' i c1,
            MediaFair.f_pool c !! m = Some t' ->
            MediaFair.fair_code (th_call t') !! th_pc t' = Some i ->
            MediaFair.fair_exec i c = Some c1 ->
            exists m c', MediaFair.fair_step m c = Some c').
  { intros m t' i c1 Hl' Hi He. exists m. unfold MediaFair.fair_step.
    rewrite Hl', Hi, He. eauto. }
  destruct (tally MediaFair.reading_now (MediaFair.f_pool c)) as [|jr] eqn:Hs.
  - destruct (tally MediaFair.holding_w (MediaFair.f_pool c)) as [|jw] eqn:He.
    + (* nobody inside, no writer announced: a first step goes through *)
      assert (L1 : MediaFair.reading_now t = O)
        by (pose proof (tally_lookup_le MediaFair.reading_now _ _ _ Hl); lia).
      assert (L2 : MediaFair.holding_w t = O)
        by (pose proof (tally_lookup_le MediaFair.holding_w _ _ _ Hl); lia).
      apply lookup_lt_is_Some_2 in Hpc as [i Hi].
      unfold MediaFair.reading_now, MediaFair.holding_w in L1, L2.
      rewrite Hi in L1, L2.
      destruct (MediaFair.announced (MediaFair.f_mu c)) eqn:Ea; [cbn in Hw; lia|].
      destruct i; try discriminate.
      * eapply (Hstep n t); [eassumption..|]. cbn. rewrite Ea. reflexivity.
      * eapply (Hstep n t); [eassumption..|]. cbn. rewrite Ea. reflexivity.
    + (* a writer holds rw.w and no reader is inside: the writer moves *)
      destruct (tally_positive MediaFair.holding_w (MediaFair.f_pool c))
        as (m & t' & Hl' & Hpos); [lia|].
      unfold MediaFair.holding_w in Hpos.
      destruct (MediaFair.fair_code (th_call t') !! th_pc t') as [i|] eqn:Hi; [|lia].
      destruct i; try lia.
      * eapply (Hstep m t'); [eassumption..|]. cbn. rewrite Hr. reflexivity.
      * eapply (Hstep m t'); [eassumption..|]. reflexivity.
      * eapply (Hstep m t'); [eassumption..|]. reflexivity.
      * eapply (Hstep m t'); [eassumption..|]. reflexivity.
  - (* a reader is inside: it moves *)
    destruct (tally_positive MediaFair.reading_now (MediaFair.f_pool c))
      as (m & t' & Hl' & Hpos); [lia|].
    unfold MediaFair.reading_now in Hpos.
    destruct (MediaFair.fair_code (th_call t') !! th_pc t') as [i|] eqn:Hi; [|lia].
    destruct i; try lia.
    + eapply (Hstep m t'); [eassumption..|]. reflexivity.
    + destruct (MediaFair.f_torn c) eqn:Et;
        (eapply (Hstep m t'); [eassumption..|]; cbn; rewrite Et; reflexivity).
Qed.

Lemma finished_outside (t : @thread W) :
  finished t -> in_shared t = O /\ in_exclusive t = O /\ in_store t = O.
Proof.
  unfold finished, in_shared, in_exclusive, in_store. intros Hf.
  rewrite lookup_ge_None_2 by lia. auto.
Qed.

Lemma tally_zero (f : @thread W -> nat) l :
  Forall (fun t => f t = O) l -> tally f l = O.
Proof.
  induction 1 as [|x l Hx _ IH]; [reflexivity|].
  rewrite tally_cons, Hx, IH. reflexivity.
Qed.

(** X15: no call leaves the lock held.  Once every call of an
    interleaving has returned, the mutex has no writer and no readers,
    and no store to the handler is left half done. *)
Theorem returned_calls_leave_the_lock_free (w : W) calls sched (c : @Config W) :
  run sched (init go_discard w calls) = Some c ->
  Forall finished (pool c) ->
  mu c = {| writer := false; readers := O |} /\ torn c = false.
Proof.
  intros Hrun Hfin.
  destruct (run_invariant _ _ _ (init_invariant go_discard w calls) Hrun)
    as (Hr & Hw & Ht & _ & _).
  rewrite tally_zero in Hr, Hw, Ht
    by (eapply Forall_impl; [exact Hfin|]; intros t Hf; now apply finished_outside).
  destruct (mu c) as [wr rd]. cbn in *. subst rd.
  destruct wr; [discriminate|]. destruct (torn c); [discriminate|]. auto.
Qed.

(** The calls of the pool never change, only the positions do. *)
Lemma step_calls n (c c' : @Config W) :
  step n c = Some c' -> th_call <$> pool c' = th_call <$> pool c.
Proof.
  unfold step.
  destruct (pool c !! n) as [t|] eqn:Hl; [|discriminate].
  destruct (code (th_call t) !! th_pc t) as [i|]; [|discriminate].
  destruct (exec i c) as [c1|] eqn:He; [|discriminate].
  intros [= <-]. cbn [pool]. rewrite (exec_pool _ _ _ He).
  rewrite list_fmap_insert. cbn [advance th_call].
  apply list_insert_id. rewrite list_lookup_fmap, Hl. reflexivity.
Qed.

Lemma step_handler n (c c' : @Config W) :
  step n c = Some c' ->
  reader (sr c') = reader (sr c) \/
  exists h, CallSwitchReader h ∈ (th_call <$> pool c) /\ reader (sr c') = h.
Proof.
  unfold step.
  destruct (pool c !! n) as [t|] eqn:Hl; [|discriminate].
  destruct (code (th_call t) !! th_pc t) as [i|] eqn:Hi; [|discriminate].
  destruct (exec i c) as [c1|] eqn:He; [|discriminate].
  intros [= <-]. cbn [sr].
  destruct i; cbn in He;
    repeat match type of He with
           | (if ?b then _ else _) = _ => destruct b
           end;
    try discriminate; injection He as <-; cbn [sr reader]; auto.
  right. exists h. split; [|reflexivity].
  apply list_elem_of_fmap. exists t. split; [|eapply list_elem_of_lookup_2; eassumption].
  destruct t as [o pc]. cbn [th_call th_pc] in *.
  destruct o; destruct pc as [|[|[|[|pc]]]]; cbn in Hi; try discriminate.
  now injection Hi as <-.
Qed.

(** X16: a handler is never absent or made up.  In every reachable
    configuration the stored handler is the discarding default or one
    that some SwitchReader call of the interleaving was given. *)
Theorem handler_is_default_or_installed (w : W) calls sched (c : @Config W) :
  run sched (init go_discard w calls) = Some c ->
  reader (sr c) = NoopReader go_discard \/
  exists h, CallSwitchReader h ∈ calls /\ reader (sr c) = h.
Proof.
  assert (Hgen : forall sched c0 c,
            th_call <$> pool c0 = calls ->
            (reader (sr c0) = NoopReader go_discard \/
             exists h, CallSwitchReader h ∈ calls /\ reader (sr c0) = h) ->
            run sched c0 = Some c ->
            reader (sr c) = NoopReader go_discard \/
            exists h, CallSwitchReader h ∈ calls /\ reader (sr c) = h).
  { clear. induction sched as [|n sched IH]; intros c0 c Hcalls Hh; cbn [run].
    - now intros [= <-].
    - destruct (step n c0) as [c1|] eqn:Hstep; [|discriminate].
      apply IH.
      + now rewrite (step_calls _ _ _ Hstep).
      + destruct (step_handler _ _ _ Hstep) as [Heq|(h & Hin & Heq)].
        * now rewrite Heq.
        * right. exists h. now rewrite <- Hcalls. }
  apply Hgen.
  - unfold init. cbn [pool]. rewrite <- list_fmap_compose.
    now rewrite <- (list_fmap_id calls) at 2.
  - now left.
Qed.

(** X17: who touches what.  A step of a Read or Close call never
    changes the stored handler nor begins or ends a store; a step of a
    SwitchReader call never calls a handler. *)
Theorem only_SwitchReader_writes_the_handler n (c c' : @Config W) t :
  step n c = Some c' ->
  pool c !! n = Some t ->
  match th_call t with
  | CallSwitchReader _ => heap c' = heap c /\ saw_torn c' = saw_torn c
  | _ => sr c' = sr c /\ torn c' = torn c
  end.
Proof.
  unfold step. intros Hstep Hl. rewrite Hl in Hstep.
  destruct (code (th_call t) !! th_pc t) as [i|] eqn:Hi; [|discriminate].
  destruct (exec i c) as [c1|] eqn:He; [|discriminate].
  injection Hstep as <-. cbn [sr torn heap saw_torn].
  destruct t as [o pc]. cbn [th_call th_pc] in *.
  destruct o; destruct pc as [|[|[|[|pc]]]]; cbn in Hi; try discriminate;
    injection Hi as <-; cbn in He;
    repeat match type of He with
           | (if ?b then _ else _) = _ => destruct b
           end;
    try discriminate; injection He as <-; cbn; auto.
Qed.

(** X18: a call that runs with the lock free and nobody interleaving
    does what the method does when called on its own, and gives the
    lock back as it found it. *)
Theorem call_alone_is_the_method (c : @Config W) n o :
  pool c !! n = Some (mkThread o O) ->
  mu c = {| writer := false; readers := O |} ->
  torn c = false ->
  exists c',
    run (alone n o) c = Some c' /\
    (sr c', heap c') = apply_call o (sr c) (heap c) /\
    mu c' = mu c /\ torn c' = false /\ saw_torn c' = saw_torn c /\
    pool c' = <[n := mkThread o (length (code o))]> (pool c).
Proof.
  intros Hl Hmu Ht. destruct c as [s0 tn m h pl st].
  cbn [pool mu torn sr heap saw_torn] in *. subst m tn.
  assert (Hlen : (n < length pl)%nat) by (eapply lookup_lt_Some; eassumption).
  assert (Hins : forall l (x : @thread W), length l = length pl -> <[n := x]> l !! n = Some x).
  { intros l x Hll. apply list_lookup_insert_eq. lia. }
  destruct o as [newReader|rd|]; unfold alone, run, step; cbn [code length replicate pool];
    rewrite Hl; cbn.
  - rewrite Hins by reflexivity. cbn.
    rewrite Hins by now rewrite length_insert. cbn.
    rewrite Hins by now rewrite !length_insert. cbn.
    eexists. split; [reflexivity|]. cbn.
    rewrite !list_insert_insert_eq. auto 10.
  - rewrite Hins by reflexivity. cbn.
    rewrite Hins by now rewrite length_insert. cbn.
    eexists. split; [reflexivity|]. cbn.
    rewrite !list_insert_insert_eq. auto 10.
  - rewrite Hins by reflexivity. cbn.
    rewrite Hins by now rewrite length_insert. cbn.
    eexists. split; [reflexivity|]. cbn.
    rewrite !list_insert_insert_eq. auto 10.
Qed.

End Threads.

Lemma dispatcher_never_deadlocks_witness :
  exists m c', MediaFair.fair_step m MediaFair.sample_waiting_writer = Some c'.
Proof.
  apply (dispatcher_never_deadlocks ignore_stream O sample_calls [1; 0]%nat
           MediaFair.sample_waiting_writer 2%nat (mkThread CallClose 0)).
  - reflexivity.
  - reflexivity.
  - cbn. lia.
Defined.

Lemma returned_calls_leave_the_lock_free_witness :
  mu sample_end = {| writer := false; readers := O |} /\ torn sample_end = false.
Proof.
  apply (returned_calls_leave_the_lock_free ignore_stream O sample_calls sample_schedule).
  - reflexivity.
  - repeat constructor.
Defined.

Lemma handler_is_default_or_installed_witness :
  reader (sr sample_end) = NoopReader ignore_stream \/
  exists h, CallSwitchReader h ∈ sample_calls /\ reader (sr sample_end) = h.
Proof.
  apply (handler_is_default_or_installed ignore_stream O sample_calls sample_schedule).
  reflexivity.
Defined.

Lemma only_SwitchReader_writes_the_handler_witness :
  sr sample_reading = sr (init ignore_stream O sample_calls) /\
  torn sample_reading = torn (init ignore_stream O sample_calls).
Proof.
  apply (only_SwitchReader_writes_the_handler 1%nat
           (init ignore_stream O sample_calls) sample_reading
           (mkThread (CallRead eos_stream) 0)).
  - reflexivity.
  - reflexivity.
Defined.

Lemma call_alone_is_the_method_witness :
  exists c',
    run (alone 2 (@CallClose nat)) (init ignore_stream O sample_calls) = Some c' /\
    (sr c', heap c') =
      apply_call CallClose (sr (init ignore_stream O sample_calls))
        (heap (init ignore_stream O sample_calls)) /\
    mu c' = mu (init ignore_stream O sample_calls) /\
    torn c' = false /\
    saw_torn c' = saw_torn (init ignore_stream O sample_calls) /\
    pool c' =
      <[2%nat := mkThread CallClose (length (@code nat CallClose))]>
        (pool (init ignore_stream O sample_calls)).
Proof.
  apply (call_alone_is_the_method (init ignore_stream O sample_calls) 2%nat CallClose).
  - reflexivity.
  - reflexivity.
  - reflexivity.
Defined.

End MediaMore.
